(** * Magnetgetriebe: record extraction, quality factor and range filters

    A shallow embedding of the computational core of [app.py]:
    - [berechne_qualitaet], the torque-ripple quality factor of one row,
    - the extraction loop that turns the raw sheet [df] into [results],
    - the six boolean-mask filters of the tabs.

    Numbers.  A number is represented by the rational it denotes, be it an
    integer or a finite float; a blank cell is the float NaN.  Where Python
    produces a float from an operation (the true division of two integers,
    the sum and the difference of two floats) the exact result is rounded to
    the nearest binary64, ties to the even significand, as IEEE 754
    prescribes; a result beyond the range is an [OverflowError] for the
    division and an infinity for the sum and the difference.  That
    [binary64] is this rounding is [binary64_spec]; on the samples of
    [arithmetic_agrees_with_SpecFloat] the three operations give what the
    standard library's specification of IEEE 754 arithmetic gives.  The two
    zeros of binary64 are one number here: the script never looks at the
    sign of a zero.  The local integers of [berechne_qualitaet] are Python integers,
    unbounded, and are represented by [Z]. *)

From Stdlib Require Import String ZArith QArith Qround Qreduction Qabs Qpower Lqa.
From Stdlib Require Import List Bool Arith Lia.
From Stdlib Require SpecFloat.
From Equations Require Import Equations.
Import ListNotations.

(** ** Python exceptions and the error monad *)

Inductive exn : Type :=
| ZeroDivisionError
| ValueError
| TypeError
| IndexError
| KeyError
| OverflowError.

Inductive result (A : Type) : Type :=
| Ok (a : A)
| Raise (e : exn).
Arguments Ok {A} a.
Arguments Raise {A} e.

Definition bind {A B : Type} (m : result A) (k : A -> result B) : result B :=
  match m with
  | Ok a => k a
  | Raise e => Raise e
  end.

Notation "x <- m ;; k" := (bind m (fun x => k))
  (at level 61, m at next level, right associativity).

Fixpoint mapM {A B : Type} (f : A -> result B) (l : list A) : result (list B) :=
  match l with
  | [] => Ok []
  | a :: l' => b <- f a ;; bs <- mapM f l' ;; Ok (b :: bs)
  end.

(** ** Values *)

(** A float: a finite number, one of the two infinities, or NaN. *)
Inductive float : Type :=
| Fin (q : Q)
| PInf
| NInf
| NaN.

(** What a cell of a DataFrame can hold: a number or a blank, both kept as
    a [float] (NaN for the blank cell), or a text. *)
Inductive value : Type :=
| VFloat (f : float)
| VStr (s : string).

(** A number, an integer-valued number and a blank cell. *)
Definition num (q : Q) : value := VFloat (Fin q).
Definition int (z : Z) : value := VFloat (Fin (inject_Z z)).
Definition blank : value := VFloat NaN.

Definition is_float (v : value) : bool :=
  match v with
  | VFloat _ => true
  | VStr _ => false
  end.

(** A cell that holds a number: a float other than NaN. *)
Definition is_number (v : value) : bool :=
  match v with
  | VFloat NaN => false
  | VFloat _ => true
  | VStr _ => false
  end.

Definition as_float (v : value) : float :=
  match v with
  | VFloat f => f
  | VStr _ => NaN
  end.

(** ** Python arithmetic used by the script *)

Local Open Scope Z_scope.

(** [round(x)] with one argument: the nearest integer, ties to the even
    neighbour. *)
Definition round_half_even (q : Q) : Z :=
  let f := Qfloor q in
  match Qcompare (q - inject_Z f) (1 # 2) with
  | Lt => f
  | Gt => f + 1
  | Eq => if Z.even f then f else f + 1
  end.

(** [int(round(v))]: NaN and the infinities cannot be converted
    ([ValueError], [OverflowError]), a text has no [__round__]
    ([TypeError]). *)
Definition int_round (v : value) : result Z :=
  match v with
  | VFloat (Fin q) => Ok (round_half_even q)
  | VFloat NaN => Raise ValueError
  | VFloat _ => Raise OverflowError
  | VStr _ => Raise TypeError
  end.

(** [a // b] on integers: floor division, [ZeroDivisionError] on [b = 0]. *)
Definition floordiv (a b : Z) : result Z :=
  if b =? 0 then Raise ZeroDivisionError else Ok (a / b).

Local Open Scope Q_scope.

(** *** Rounding to binary64 *)

(** The format: 53 bits of significand; the smallest positive number is
    2^-1074; 2^1024 is the first power of two out of range. *)
Definition prec : Z := 53.
Definition emin : Z := -1074.
Definition emax : Z := 1024.

(** The exponent of the binade of a positive rational: the [k] with
    [2^k <= q < 2^(k+1)]. *)
Definition ilog2 (q : Q) : Z :=
  let k := (Z.log2 (Qnum q) - Z.log2 (Z.pos (Qden q)))%Z in
  if Qle_bool (2 ^ k) q then k else (k - 1)%Z.

(** The exponent of the last place of binary64 at the positive rational
    [q]: 52 below the binade, and never below [emin]. *)
Definition ulp_exponent (q : Q) : Z := Z.max emin (ilog2 q - (prec - 1)).

(** The positive rational [q] rounded to the nearest multiple of its last
    place, a tie going to the even multiple. *)
Definition round_significand (q : Q) : Q :=
  let e := ulp_exponent q in
  inject_Z (round_half_even (q / 2 ^ e)) * 2 ^ e.

(** The binary64 nearest to a positive rational. *)
Definition binary64_pos (q : Q) : float :=
  let r := round_significand q in
  if Qle_bool (2 ^ emax) r then PInf else Fin (Qred r).

(** The opposite of a float. *)
Definition fneg (a : float) : float :=
  match a with
  | Fin q => Fin (- q)
  | PInf => NInf
  | NInf => PInf
  | NaN => NaN
  end.

(** The binary64 nearest to a rational, ties to even; what rounds to 2^1024
    or beyond in absolute value is infinite.  The result is kept in lowest
    terms. *)
Definition binary64 (q : Q) : float :=
  let q := Qred q in
  match q ?= 0 with
  | Eq => Fin 0
  | Gt => binary64_pos q
  | Lt => fneg (binary64_pos (- q))
  end.

(** A float written as a decimal literal, or typed into a cell or a
    widget: the binary64 nearest to the decimal. *)
Definition float_literal (q : Q) : float := binary64 q.

(** A finite float is returned, an infinite one is the [OverflowError]
    "integer division result too large for a float". *)
Definition finite_or_overflow (f : float) : result float :=
  match f with
  | Fin q => Ok (Fin q)
  | _ => Raise OverflowError
  end.

Local Close Scope Q_scope.

(** [a / b] on integers: true division, [ZeroDivisionError] on [b = 0],
    otherwise the float nearest to the quotient, [OverflowError] when the
    quotient is too large for a float. *)
Definition truediv (a b : Z) : result float :=
  if b =? 0 then Raise ZeroDivisionError
  else finite_or_overflow (binary64 (inject_Z a / inject_Z b)).

(** [a - b] and [a + b] on floats: the float nearest to the exact result;
    infinities and NaN as in IEEE 754. *)
Definition fsub (a b : float) : float :=
  match a, b with
  | NaN, _ | _, NaN => NaN
  | Fin x, Fin y => binary64 (x - y)
  | PInf, PInf | NInf, NInf => NaN
  | PInf, _ | _, NInf => PInf
  | NInf, _ | _, PInf => NInf
  end.

Definition fadd (a b : float) : float :=
  match a, b with
  | NaN, _ | _, NaN => NaN
  | Fin x, Fin y => binary64 (x + y)
  | PInf, NInf | NInf, PInf => NaN
  | PInf, _ | _, PInf => PInf
  | NInf, _ | _, NInf => NInf
  end.

(** [a <= b] and [a >= b] on floats: a comparison with NaN is false. *)
Definition fle (a b : float) : bool :=
  match a, b with
  | NaN, _ | _, NaN => false
  | NInf, _ | _, PInf => true
  | Fin x, Fin y => Qle_bool x y
  | _, _ => false
  end.

Definition fge (a b : float) : bool := fle b a.

(** ** Rows *)

(** One row of [df_all]: the dictionary appended to [results]. *)
Record Variante : Type := mkVariante {
  Spalte : nat;
  Polzahl_Stator : value;
  Polzahl_Rotor : value;
  Modulatorzahl : value;
  Uebersetzung : value;
  Drehmoment_Modulator : value;
  Drehmoment_Rotor : value
}.

(** ** The quality factor *)

Definition berechne_qualitaet (row : Variante) : result float :=
  mod_ <- int_round (Modulatorzahl row) ;;
  rotor <- int_round (Polzahl_Rotor row) ;;
  kgv <- floordiv (mod_ * rotor) (Z.gcd mod_ rotor) ;;
  truediv (mod_ * rotor) kgv.

(** The classifier of the specification, [classify(rotorPoles,
    modulatorCount)]: the quality factor of a row whose two pole columns
    hold the arguments. *)
Definition row_of (rotorPoles modulatorCount : value) : Variante :=
  {| Spalte := 0;
     Polzahl_Stator := blank;
     Polzahl_Rotor := rotorPoles;
     Modulatorzahl := modulatorCount;
     Uebersetzung := blank;
     Drehmoment_Modulator := blank;
     Drehmoment_Rotor := blank |}.

Definition classify (rotorPoles modulatorCount : value) : result float :=
  berechne_qualitaet (row_of rotorPoles modulatorCount).

Local Close Scope Z_scope.
Local Close Scope Q_scope.

(** ** The raw sheet *)

(** [df = pd.read_excel(EXCEL_PATH, header=None)]: the sheet as its list of
    rows; the column labels are the positions [0, 1, ...]. *)
Definition DataFrame : Type := list (list value).

Definition len (df : DataFrame) : nat := length df.

Definition ncols (df : DataFrame) : nat := length (hd [] df).

Definition columns (df : DataFrame) : list nat := seq 0 (ncols df).

Definition rectangular (df : DataFrame) : bool :=
  forallb (fun row => length row =? ncols df) df.

(** [df.iloc[r, c]]: positional access, [IndexError] out of bounds. *)
Definition iloc (df : DataFrame) (r c : nat) : result value :=
  match nth_error df r with
  | Some row =>
      match nth_error row c with
      | Some v => Ok v
      | None => Raise IndexError
      end
  | None => Raise IndexError
  end.

(** [df.iloc[r, :].tolist()] *)
Definition iloc_row (df : DataFrame) (r : nat) : result (list value) :=
  match nth_error df r with
  | Some row => Ok row
  | None => Raise IndexError
  end.

(** ** Extraction *)

(** The body of the [while] loop up to [results.append]: the five reads of
    one block and the dictionary built from them. *)
Definition read_block (df : DataFrame) (col : nat) (stator : value)
    (start_row : nat) : result Variante :=
  rotor <- iloc df start_row col ;;
  mod_ <- iloc df (start_row + 1) col ;;
  ratio <- iloc df (start_row + 2) col ;;
  torque_mod <- iloc df (start_row + 3) col ;;
  torque_rot <- iloc df (start_row + 4) col ;;
  Ok {| Spalte := col;
        Polzahl_Stator := stator;
        Polzahl_Rotor := rotor;
        Modulatorzahl := mod_;
        Uebersetzung := ratio;
        Drehmoment_Modulator := torque_mod;
        Drehmoment_Rotor := torque_rot |}.

(** [while start_row + 4 < len(df): ...; start_row += 5], threading the
    list [results]. *)
Equations? while_blocks (df : DataFrame) (col : nat) (stator : value)
    (start_row : nat) (results : list Variante) : result (list Variante)
    by wf (len df - start_row)%nat lt :=
  while_blocks df col stator start_row results
    with lt_dec (start_row + 4) (len df) => {
    | left _ with read_block df col stator start_row => {
      | Ok r := while_blocks df col stator (start_row + 5) (results ++ [r]);
      | Raise e := Raise e };
    | right _ := Ok results }.
Proof. unfold len in *. lia. Qed.

(** [for col in df.columns: ...] *)
Fixpoint for_columns (df : DataFrame) (cols : list nat)
    (results : list Variante) : result (list Variante) :=
  match cols with
  | [] => Ok results
  | col :: cols' =>
      stator <- iloc df 0 col ;;
      results' <- while_blocks df col stator 1 results ;;
      for_columns df cols' results'
  end.

(** The list [results] after the loop over the columns. *)
Definition results_loop (df : DataFrame) : result (list Variante) :=
  for_columns df (columns df) [].

(** The extraction section of the script: [p_stator], then the loop. *)
Definition extraction (df : DataFrame) : result (list Variante) :=
  p_stator <- iloc_row df 0 ;;
  results_loop df.

(** ** Series and boolean masks *)

(** [series >= x]: element by element; a text cannot be compared with a
    float ([TypeError]). *)
Definition series_ge (s : list value) (x : float) : result (list bool) :=
  mapM (fun v => match v with
                 | VFloat f => Ok (fge f x)
                 | VStr _ => Raise TypeError
                 end) s.

Definition series_le (s : list value) (x : float) : result (list bool) :=
  mapM (fun v => match v with
                 | VFloat f => Ok (fle f x)
                 | VStr _ => Raise TypeError
                 end) s.

(** A frame of extracted records.  [pd.DataFrame(results)] takes its
    columns from the keys of the dictionaries in [results]: made from the
    empty list it has no rows and no columns. *)
Inductive Frame : Type :=
| NoColumns
| Rows (rows : list Variante).

Definition DataFrame_of (results : list Variante) : Frame :=
  match results with
  | [] => NoColumns
  | _ :: _ => Rows results
  end.

(** [frame[name]]: [KeyError] on a frame that has no such column. *)
Definition getitem_column (frame : Frame) (col : Variante -> value)
    : result (list value) :=
  match frame with
  | NoColumns => Raise KeyError
  | Rows rows => Ok (map col rows)
  end.

(** [frame[name] >= x] and [frame[name] <= x] *)
Definition column_ge (frame : Frame) (col : Variante -> value)
    (x : float) : result (list bool) :=
  s <- getitem_column frame col ;; series_ge s x.

Definition column_le (frame : Frame) (col : Variante -> value)
    (x : float) : result (list bool) :=
  s <- getitem_column frame col ;; series_le s x.

(** [m1 & m2] *)
Definition mask_and (m1 m2 : list bool) : list bool :=
  map (fun p => fst p && snd p) (combine m1 m2).

(** Selection of rows by a mask: the rows whose mask entry is [True], in
    their order; a mask of the wrong length is refused ([ValueError]). *)
Fixpoint select_rows (rows : list Variante) (mask : list bool)
    : result (list Variante) :=
  match rows, mask with
  | [], [] => Ok []
  | r :: rows', b :: mask' =>
      rest <- select_rows rows' mask' ;;
      Ok (if b then r :: rest else rest)
  | _, _ => Raise ValueError
  end.

(** [frame[mask]]: a new frame with the columns of [frame]. *)
Definition getitem_mask (frame : Frame) (mask : list bool) : result Frame :=
  match frame with
  | NoColumns =>
      match mask with
      | [] => Ok NoColumns
      | _ :: _ => Raise ValueError
      end
  | Rows rows => rows' <- select_rows rows mask ;; Ok (Rows rows')
  end.

(** ** The tabs *)

(** The module-level variables the filters read and assign. *)
Record Globals : Type := mkGlobals {
  df_all : Frame;
  gear_ratio_filtered : option Frame;
  torque_filtered : option Frame;
  torque_filtered_MOD : option Frame;
  combo_filtered : option Frame
}.

(** [df_all = pd.DataFrame(results)], no tab run yet. *)
Definition initial_globals (results : list Variante) : Globals :=
  {| df_all := DataFrame_of results;
     gear_ratio_filtered := None;
     torque_filtered := None;
     torque_filtered_MOD := None;
     combo_filtered := None |}.

Definition set_gear_ratio_filtered (g : Globals) (v : Frame) : Globals :=
  {| df_all := df_all g;
     gear_ratio_filtered := Some v;
     torque_filtered := torque_filtered g;
     torque_filtered_MOD := torque_filtered_MOD g;
     combo_filtered := combo_filtered g |}.

Definition set_torque_filtered (g : Globals) (v : Frame) : Globals :=
  {| df_all := df_all g;
     gear_ratio_filtered := gear_ratio_filtered g;
     torque_filtered := Some v;
     torque_filtered_MOD := torque_filtered_MOD g;
     combo_filtered := combo_filtered g |}.

Definition set_torque_filtered_MOD (g : Globals) (v : Frame) : Globals :=
  {| df_all := df_all g;
     gear_ratio_filtered := gear_ratio_filtered g;
     torque_filtered := torque_filtered g;
     torque_filtered_MOD := Some v;
     combo_filtered := combo_filtered g |}.

Definition set_combo_filtered (g : Globals) (v : Frame) : Globals :=
  {| df_all := df_all g;
     gear_ratio_filtered := gear_ratio_filtered g;
     torque_filtered := torque_filtered g;
     torque_filtered_MOD := torque_filtered_MOD g;
     combo_filtered := Some v |}.

(** Tab "Uebersetzung". *)
Definition tab_uebersetzung (selected_ratio tolerance_Uebersetzung : float)
    (g : Globals) : result Globals :=
  let min_gear_ratio := fsub selected_ratio tolerance_Uebersetzung in
  let max_gear_ratio := fadd selected_ratio tolerance_Uebersetzung in
  m1 <- column_ge (df_all g) Uebersetzung min_gear_ratio ;;
  m2 <- column_le (df_all g) Uebersetzung max_gear_ratio ;;
  rows <- getitem_mask (df_all g) (mask_and m1 m2) ;;
  Ok (set_gear_ratio_filtered g rows).

(** Tab "Rotor-Drehmoment". *)
Definition tab_rotor (target_torque_Rotor tolerance_Rotor : float)
    (g : Globals) : result Globals :=
  let min_torque_Rotor := fsub target_torque_Rotor tolerance_Rotor in
  let max_torque_Rotor := fadd target_torque_Rotor tolerance_Rotor in
  m1 <- column_ge (df_all g) Drehmoment_Rotor min_torque_Rotor ;;
  m2 <- column_le (df_all g) Drehmoment_Rotor max_torque_Rotor ;;
  rows <- getitem_mask (df_all g) (mask_and m1 m2) ;;
  Ok (set_torque_filtered g rows).

(** Tab "Modulator-Drehmoment". *)
Definition tab_mod (target_torque_MOD tolerance_MOD : float)
    (g : Globals) : result Globals :=
  let min_torque_MOD := fsub target_torque_MOD tolerance_MOD in
  let max_torque_MOD := fadd target_torque_MOD tolerance_MOD in
  m1 <- column_ge (df_all g) Drehmoment_Modulator min_torque_MOD ;;
  m2 <- column_le (df_all g) Drehmoment_Modulator max_torque_MOD ;;
  rows <- getitem_mask (df_all g) (mask_and m1 m2) ;;
  Ok (set_torque_filtered_MOD g rows).

(** Tab "Uebersetzung + Rotor". *)
Definition tab_combo1
    (combo_ratio_TRot combo_tolerance_i combo_target_torque combo_tolerance_T : float)
    (g : Globals) : result Globals :=
  let min_t_i_TRotor := fsub combo_ratio_TRot combo_tolerance_i in
  let max_t_i_TRotor := fadd combo_ratio_TRot combo_tolerance_i in
  let min_t_T := fsub combo_target_torque combo_tolerance_T in
  let max_t_T := fadd combo_target_torque combo_tolerance_T in
  m1 <- column_ge (df_all g) Uebersetzung min_t_i_TRotor ;;
  m2 <- column_le (df_all g) Uebersetzung max_t_i_TRotor ;;
  m3 <- column_ge (df_all g) Drehmoment_Rotor min_t_T ;;
  m4 <- column_le (df_all g) Drehmoment_Rotor max_t_T ;;
  rows <- getitem_mask (df_all g)
            (mask_and (mask_and (mask_and m1 m2) m3) m4) ;;
  Ok (set_combo_filtered g rows).

(** Tab "Uebersetzung + Modulator". *)
Definition tab_combo2
    (combo_ratio_TMOD combo_tolerance_i combo_target_torque combo_tolerance : float)
    (g : Globals) : result Globals :=
  let min_t_i_TMOD := fsub combo_ratio_TMOD combo_tolerance_i in
  let max_t_i_TMOD := fadd combo_ratio_TMOD combo_tolerance_i in
  let min_t_T := fsub combo_target_torque combo_tolerance in
  let max_t_T := fadd combo_target_torque combo_tolerance in
  m1 <- column_ge (df_all g) Uebersetzung min_t_i_TMOD ;;
  m2 <- column_le (df_all g) Uebersetzung max_t_i_TMOD ;;
  m3 <- column_ge (df_all g) Drehmoment_Modulator min_t_T ;;
  m4 <- column_le (df_all g) Drehmoment_Modulator max_t_T ;;
  rows <- getitem_mask (df_all g)
            (mask_and (mask_and (mask_and m1 m2) m3) m4) ;;
  Ok (set_combo_filtered g rows).

(** Tab "Rotor + Modulator". *)
Definition tab_combo3
    (combo_target_torque_MOD combo_tolerance_MOD
     combo_target_torque_Rotor combo_tolerance_Rotor : float)
    (g : Globals) : result Globals :=
  let min_t_MOD := fsub combo_target_torque_MOD combo_tolerance_MOD in
  let max_t_MOD := fadd combo_target_torque_MOD combo_tolerance_MOD in
  let min_t_Rotor := fsub combo_target_torque_Rotor combo_tolerance_Rotor in
  let max_t_Rotor := fadd combo_target_torque_Rotor combo_tolerance_Rotor in
  m1 <- column_ge (df_all g) Drehmoment_Modulator min_t_MOD ;;
  m2 <- column_le (df_all g) Drehmoment_Modulator max_t_MOD ;;
  m3 <- column_ge (df_all g) Drehmoment_Rotor min_t_Rotor ;;
  m4 <- column_le (df_all g) Drehmoment_Rotor max_t_Rotor ;;
  rows <- getitem_mask (df_all g)
            (mask_and (mask_and (mask_and m1 m2) m3) m4) ;;
  Ok (set_combo_filtered g rows).

(** One filter invocation: a tab together with the values of its input
    widgets. *)
Inductive Invocation : Type :=
| Uebersetzung_tab (selected_ratio tolerance : float)
| Rotor_tab (target tolerance : float)
| Modulator_tab (target tolerance : float)
| Combo1_tab (ratio tolerance_i target tolerance_T : float)
| Combo2_tab (ratio tolerance_i target tolerance : float)
| Combo3_tab (target_MOD tolerance_MOD target_Rotor tolerance_Rotor : float).

Definition run (i : Invocation) (g : Globals) : result Globals :=
  match i with
  | Uebersetzung_tab r t => tab_uebersetzung r t g
  | Rotor_tab x t => tab_rotor x t g
  | Modulator_tab x t => tab_mod x t g
  | Combo1_tab r ti x t => tab_combo1 r ti x t g
  | Combo2_tab r ti x t => tab_combo2 r ti x t g
  | Combo3_tab xm tm xr tr => tab_combo3 xm tm xr tr g
  end.

(** The variable an invocation assigns. *)
Definition filtered (i : Invocation) (g : Globals) : option Frame :=
  match i with
  | Uebersetzung_tab _ _ => gear_ratio_filtered g
  | Rotor_tab _ _ => torque_filtered g
  | Modulator_tab _ _ => torque_filtered_MOD g
  | Combo1_tab _ _ _ _ | Combo2_tab _ _ _ _ | Combo3_tab _ _ _ _ =>
      combo_filtered g
  end.

(** ** The range filter of the specification *)

Inductive Field : Type := gearRatio | modulatorTorque | rotorTorque.

Definition field_value (f : Field) : Variante -> value :=
  match f with
  | gearRatio => Uebersetzung
  | modulatorTorque => Drehmoment_Modulator
  | rotorTorque => Drehmoment_Rotor
  end.

Definition Triple : Type := Field * float * float.

(** [target - tolerance <= record[field] <= target + tolerance] *)
Definition in_range (r : Variante) (t : Triple) : bool :=
  let '(f, target, tolerance) := t in
  match field_value f r with
  | VFloat x => fle (fsub target tolerance) x && fle x (fadd target tolerance)
  | VStr _ => false
  end.

Definition filterByRange (records : list Variante) (triples : list Triple)
    : list Variante :=
  filter (fun r => forallb (in_range r) triples) records.

(** The triples an invocation stands for. *)
Definition triples_of (i : Invocation) : list Triple :=
  match i with
  | Uebersetzung_tab r t => [(gearRatio, r, t)]
  | Rotor_tab x t => [(rotorTorque, x, t)]
  | Modulator_tab x t => [(modulatorTorque, x, t)]
  | Combo1_tab r ti x t => [(gearRatio, r, ti); (rotorTorque, x, t)]
  | Combo2_tab r ti x t => [(gearRatio, r, ti); (modulatorTorque, x, t)]
  | Combo3_tab xm tm xr tr => [(modulatorTorque, xm, tm); (rotorTorque, xr, tr)]
  end.

(** The tab that filters on a given list of triples: one triple, or two
    triples on two different fields in either order. *)
Definition invocation_of (triples : list Triple) : option Invocation :=
  match triples with
  | [(gearRatio, r, t)] => Some (Uebersetzung_tab r t)
  | [(rotorTorque, x, t)] => Some (Rotor_tab x t)
  | [(modulatorTorque, x, t)] => Some (Modulator_tab x t)
  | [(gearRatio, r, ti); (rotorTorque, x, t)]
  | [(rotorTorque, x, t); (gearRatio, r, ti)] => Some (Combo1_tab r ti x t)
  | [(gearRatio, r, ti); (modulatorTorque, x, t)]
  | [(modulatorTorque, x, t); (gearRatio, r, ti)] => Some (Combo2_tab r ti x t)
  | [(modulatorTorque, xm, tm); (rotorTorque, xr, tr)]
  | [(rotorTorque, xr, tr); (modulatorTorque, xm, tm)] =>
      Some (Combo3_tab xm tm xr tr)
  | _ => None
  end.

(** A record whose three filterable columns hold floats (numbers or NaN),
    as in a frame whose columns have dtype float64. *)
Definition float_fields (r : Variante) : bool :=
  is_float (Uebersetzung r)
  && is_float (Drehmoment_Modulator r)
  && is_float (Drehmoment_Rotor r).

(** A column all of whose entries are floats. *)
Definition float_column (col : Variante -> value) (rows : list Variante) : Prop :=
  Forall (fun r => exists x, col r = VFloat x) rows.

(** A negative tolerance. *)
Definition negative (tolerance : float) : bool :=
  match tolerance with
  | Fin q => negb (Qle_bool 0 q)
  | NInf => true
  | _ => false
  end.

Definition tolerance_of (t : Triple) : float := snd t.

Definition has_negative_tolerance (triples : list Triple) : bool :=
  existsb (fun t => negative (tolerance_of t)) triples.

(** [l1] is [l2] with some elements left out. *)
Inductive subsequence {A : Type} : list A -> list A -> Prop :=
| subsequence_nil : subsequence [] []
| subsequence_keep x l1 l2 : subsequence l1 l2 -> subsequence (x :: l1) (x :: l2)
| subsequence_skip x l1 l2 : subsequence l1 l2 -> subsequence l1 (x :: l2).


(** ** Integers and floats of the specification *)

(** The nearest integer of a rational: at most a half away, and even when
    exactly a half away. *)
Definition nearest_integer (q : Q) (z : Z) : Prop :=
  (Qabs (q - inject_Z z) <= 1 # 2)%Q
  /\ ((Qabs (q - inject_Z z) == 1 # 2)%Q -> Z.even z = true).

(** The integers from here on have no float: 2^1024 - 2^970 is halfway
    between the largest float and 2^1024, and rounds to the latter. *)
Definition float_limit : Z := (2 ^ 1024 - 2 ^ 970)%Z.

Local Open Scope Q_scope.

(** A binary64 number: a significand of at most 53 bits times a power of
    two between 2^-1074 and 2^971. *)
Definition binary64_number (x : Q) : Prop :=
  exists m e : Z,
    (Z.abs m < 2 ^ prec)%Z /\ (emin <= e <= emax - prec)%Z
    /\ x == inject_Z m * 2 ^ e.

(** [x] is the binary64 number nearest to [q]: no binary64 number is nearer,
    and if another one is as near, [x] is the even one of the two, an even
    multiple of their distance. *)
Definition nearest_binary64 (q x : Q) : Prop :=
  binary64_number x
  /\ forall y, binary64_number y ->
       Qabs (x - q) <= Qabs (y - q)
       /\ (Qabs (y - q) == Qabs (x - q) -> ~ y == x ->
           exists m : Z, Z.even m = true /\ x == inject_Z m * (y - x)).

(** [f] is what rounding to nearest, ties to even, makes of [q]: the
    nearest binary64 number, or an infinity from 2^1024 - 2^970 on. *)
Definition rounds_to (q : Q) (f : float) : Prop :=
  match f with
  | Fin x => nearest_binary64 q x /\ Qabs q < inject_Z float_limit
  | PInf => inject_Z float_limit <= q
  | NInf => q <= - inject_Z float_limit
  | NaN => False
  end.

Local Close Scope Q_scope.

(** A float of the standard library's specification of IEEE 754, as a
    float of this file. *)
Definition of_spec_float (f : SpecFloat.spec_float) : float :=
  match f with
  | SpecFloat.S754_zero _ => Fin 0
  | SpecFloat.S754_infinity false => PInf
  | SpecFloat.S754_infinity true => NInf
  | SpecFloat.S754_nan => NaN
  | SpecFloat.S754_finite s m e =>
      Fin (Qred ((if s then - inject_Z (Z.pos m) else inject_Z (Z.pos m))
                 * Qpower 2 e))
  end.

(** An integer as such a float. *)
Definition spec_float_of_Z (z : Z) : SpecFloat.spec_float :=
  SpecFloat.binary_normalize prec emax z 0 false.

(** ** The layout of the specification *)

(** The cell at row [r] of column [c]. *)
Definition cell (df : DataFrame) (r c : nat) : value :=
  nth c (nth r df []) blank.

(** The number of complete 5-row blocks below row 0. *)
Definition complete_blocks (df : DataFrame) : nat := (len df - 1) / 5.

(** The record of block [k] of column [c]: row 0 is the stator pole count,
    the block starts at row [1 + 5 * k], offsets 0 .. 4 are rotor poles,
    modulator count, gear ratio, modulator torque and rotor torque. *)
Definition block_record (df : DataFrame) (c k : nat) : Variante :=
  {| Spalte := c;
     Polzahl_Stator := cell df 0 c;
     Polzahl_Rotor := cell df (1 + 5 * k) c;
     Modulatorzahl := cell df (1 + 5 * k + 1) c;
     Uebersetzung := cell df (1 + 5 * k + 2) c;
     Drehmoment_Modulator := cell df (1 + 5 * k + 3) c;
     Drehmoment_Rotor := cell df (1 + 5 * k + 4) c |}.

(** One record per complete block, column 0's blocks first. *)
Definition extract_spec (df : DataFrame) : list Variante :=
  flat_map (fun c => map (block_record df c) (seq 0 (complete_blocks df)))
           (columns df).

(** A record all of whose five block cells are numbers. *)
Definition well_formed (r : Variante) : bool :=
  is_number (Polzahl_Rotor r)
  && is_number (Modulatorzahl r)
  && is_number (Uebersetzung r)
  && is_number (Drehmoment_Modulator r)
  && is_number (Drehmoment_Rotor r).

(** ** Sample data *)

Local Open Scope Q_scope.

Definition grid6 : DataFrame :=
  [[int 10]; [int 20]; [int 8]; [num (3 # 2)]; [int 3]; [int 2]].

Definition grid7 : DataFrame := grid6 ++ [[int 99]].

Definition variant6 : Variante :=
  {| Spalte := 0;
     Polzahl_Stator := int 10;
     Polzahl_Rotor := int 20;
     Modulatorzahl := int 8;
     Uebersetzung := num (3 # 2);
     Drehmoment_Modulator := int 3;
     Drehmoment_Rotor := int 2 |}.

(** Two columns, two blocks each; the first block of column 1 has a blank
    gear ratio, the second block of column 0 a text as rotor torque. *)
Definition grid_malformed : DataFrame :=
  [[int 10;          int 12];
   [int 20;          int 16];
   [int 8;           int 6];
   [num (3 # 2);     blank];
   [int 3;           num (5 # 2)];
   [int 2;           num (7 # 4)];
   [int 22;          int 14];
   [int 9;           int 5];
   [num (6 # 5);     num (9 # 5)];
   [int 4;           int 1];
   [VStr "n/a";      int 2]].

(** One column whose pole counts are not integers. *)
Definition grid_fractional : DataFrame :=
  [[int 10]; [num (41 # 2)]; [num (15 # 2)]; [num (3 # 2)]; [int 3]; [int 2]].

(** Pairs of binary64 numbers, as significand and exponent: 2.0 and 0.1,
    sums that overflow, ties, subnormal numbers, infinities. *)
Definition ieee_samples : list (SpecFloat.spec_float * SpecFloat.spec_float) :=
  [ (SpecFloat.S754_finite false 4503599627370496 (-51),
     SpecFloat.S754_finite false 7205759403792794 (-56));
    (SpecFloat.S754_finite false 4503599627370496 (-51),
     SpecFloat.S754_finite true 7205759403792794 (-56));
    (SpecFloat.S754_finite false 7205759403792794 (-56),
     SpecFloat.S754_finite false 7205759403792794 (-55));
    (SpecFloat.S754_finite false 5010420900022432 971,
     SpecFloat.S754_finite false 5010420900022432 971);
    (SpecFloat.S754_finite true 5010420900022432 971,
     SpecFloat.S754_finite true 5010420900022432 971);
    (SpecFloat.S754_finite false 5010420900022432 971,
     SpecFloat.S754_finite true 5010420900022432 971);
    (SpecFloat.S754_finite false 4503599627370496 1,
     SpecFloat.S754_finite false 4503599627370496 (-52));
    (SpecFloat.S754_finite false 4503599627370496 1,
     SpecFloat.S754_finite false 6755399441055744 (-51));
    (SpecFloat.S754_finite false 4503599627370496 (-52),
     SpecFloat.S754_finite false 4503599627370496 (-105));
    (SpecFloat.S754_finite false 4503599627370496 (-52),
     SpecFloat.S754_finite false 4503599627370497 (-105));
    (SpecFloat.S754_finite false 4503599627370496 (-52),
     SpecFloat.S754_finite true 4503599627370496 (-106));
    (SpecFloat.S754_finite false 1 (-1074),
     SpecFloat.S754_finite false 1 (-1074));
    (SpecFloat.S754_finite false 1 (-1074),
     SpecFloat.S754_finite true 1 (-1074));
    (SpecFloat.S754_finite false 4503599627370496 (-1074),
     SpecFloat.S754_finite true 1 (-1074));
    (SpecFloat.S754_finite false 9007199254740991 971,
     SpecFloat.S754_finite false 4503599627370496 918);
    (SpecFloat.S754_finite false 9007199254740991 971,
     SpecFloat.S754_finite false 9007199254740903 917);
    (SpecFloat.S754_finite false 4503599627370496 (-51),
     SpecFloat.S754_finite false 6490371073168535 (-109));
    (SpecFloat.S754_finite false 4503599627370496 (-51),
     SpecFloat.S754_finite true 6490371073168535 (-109));
    (SpecFloat.S754_finite false 6755399441055744 (-52),
     SpecFloat.S754_finite false 4503599627370496 (-53));
    (SpecFloat.S754_finite false 7430939385161318 (-51),
     SpecFloat.S754_finite false 4953959590107546 (-52));
    (SpecFloat.S754_finite false 6305039478318694 (-53),
     SpecFloat.S754_finite false 7205759403792794 (-56));
    (SpecFloat.S754_finite false 8483885939586761 (-36),
     SpecFloat.S754_finite false 4611686018427388 (-62));
    (SpecFloat.S754_infinity false,
     SpecFloat.S754_finite false 4503599627370496 (-52));
    (SpecFloat.S754_infinity true,
     SpecFloat.S754_finite false 4503599627370496 (-52));
    (SpecFloat.S754_finite false 4503599627370496 (-52),
     SpecFloat.S754_infinity false);
    (SpecFloat.S754_infinity false,
     SpecFloat.S754_infinity true);
    (SpecFloat.S754_infinity false,
     SpecFloat.S754_infinity false);
    (SpecFloat.S754_finite true 6198333551970786 (-44),
     SpecFloat.S754_finite false 6793642834755340 (-52));
    (SpecFloat.S754_finite false 5310534660465996 (-44),
     SpecFloat.S754_finite false 6524480672880960 (-53));
    (SpecFloat.S754_finite true 7775765147195270 (-43),
     SpecFloat.S754_finite false 5713218447265869 (-50)) ].

(** Pairs of integers to divide. *)
Definition division_samples : list (Z * Z) :=
  [ (1, 10); (1, 3); (2, 3); (10, 3); (9007199254740991, 3); (-7, 3);
    (7, -3); (1, 9007199254740991); (4503599627370497, 4503599627370495);
    (48, 12); (24, 12); (5, 1099511627777); (123456789, 1000); (0, 5);
    (-1, 10) ]%Z.

(** Three records whose gear ratios are the floats 1.9, 2.0 and 2.1. *)
Definition tenths_records : list Variante :=
  [ {| Spalte := 0; Polzahl_Stator := int 10; Polzahl_Rotor := int 20;
       Modulatorzahl := int 8; Uebersetzung := VFloat (float_literal (19 # 10));
       Drehmoment_Modulator := int 3; Drehmoment_Rotor := int 2 |};
    {| Spalte := 0; Polzahl_Stator := int 10; Polzahl_Rotor := int 4;
       Modulatorzahl := int 7; Uebersetzung := int 2;
       Drehmoment_Modulator := int 1; Drehmoment_Rotor := int 1 |};
    {| Spalte := 1; Polzahl_Stator := int 12; Polzahl_Rotor := int 6;
       Modulatorzahl := int 9; Uebersetzung := VFloat (float_literal (21 # 10));
       Drehmoment_Modulator := int 2; Drehmoment_Rotor := int 4 |} ].

Definition sample_records : list Variante :=
  [ {| Spalte := 0; Polzahl_Stator := int 10; Polzahl_Rotor := int 20;
       Modulatorzahl := int 8; Uebersetzung := num (3 # 2);
       Drehmoment_Modulator := int 3; Drehmoment_Rotor := int 2 |};
    {| Spalte := 0; Polzahl_Stator := int 10; Polzahl_Rotor := int 4;
       Modulatorzahl := int 7; Uebersetzung := int 3;
       Drehmoment_Modulator := int 1; Drehmoment_Rotor := num (1 # 2) |};
    {| Spalte := 1; Polzahl_Stator := int 12; Polzahl_Rotor := int 6;
       Modulatorzahl := int 9; Uebersetzung := num (5 # 2);
       Drehmoment_Modulator := blank; Drehmoment_Rotor := int 4 |};
    {| Spalte := 1; Polzahl_Stator := int 12; Polzahl_Rotor := int 2;
       Modulatorzahl := int 7; Uebersetzung := num (1 # 1);
       Drehmoment_Modulator := int 2; Drehmoment_Rotor := int 2 |};
    {| Spalte := 2; Polzahl_Stator := int 14; Polzahl_Rotor := int 2;
       Modulatorzahl := int 8; Uebersetzung := int 2;
       Drehmoment_Modulator := int 5; Drehmoment_Rotor := int 1 |} ].

Local Close Scope Q_scope.

(** ** The coloured table *)

Local Open Scope string_scope.

(** [a == b] on floats: false as soon as NaN is involved. *)
Definition feq (a b : float) : bool :=
  match a, b with
  | Fin x, Fin y => Qeq_bool x y
  | PInf, PInf | NInf, NInf => true
  | _, _ => false
  end.

Definition gruen : string :=
  "background-color: rgba(0, 255, 0, 0.7); text-align: center".
Definition gelb : string :=
  "background-color: rgba(255, 255, 0, 0.7); text-align: center".
Definition rot : string :=
  "background-color: rgba(255, 0, 0, 0.7); text-align: center".

(** The inner function of [farbige_und_zentrierte_formatierung]. *)
Definition farbe_und_zentrierung (qualitaet : float) : string :=
  if feq qualitaet (Fin 1) then gruen
  else if feq qualitaet (Fin 2) then gelb
  else rot.

(** The six columns a tab selects for display, in their order, and the
    cells of one row under them. *)
Definition anzeige_spalten : list string :=
  ["Polzahl Stator"; "Polzahl Rotor"; "Modulatorzahl"; "Übersetzung";
   "Drehmoment Modulator"; "Drehmoment Rotor"].

Definition zellen (r : Variante) : list value :=
  [Polzahl_Stator r; Polzahl_Rotor r; Modulatorzahl r; Uebersetzung r;
   Drehmoment_Modulator r; Drehmoment_Rotor r].

(** What the styled table amounts to: the displayed cells row by row, for
    every displayed column the CSS of its cells from top to bottom, and the
    table styles. *)
Record Styler : Type := mkStyler {
  data : list (list value);
  styles : list (list string);
  table_styles : list (string * list (string * string))
}.

Definition zentriert : list (string * list (string * string)) :=
  [("th", [("text-align", "center"); ("font-size", "20px")]);
   ("td", [("text-align", "center"); ("font-size", "20px")])].

Local Close Scope string_scope.

Section Formatierung.

(** What [df["Qualitaet"] = df.apply(..., axis=1)] comes to on a frame
    without rows; pandas does not call the function row by row there, and
    the outcome is left open here. *)
Variable apply_empty : result (list float).

(** [df.apply(lambda row: berechne_qualitaet(row), axis=1)] as the new
    column: row by row from the top, the first exception ends it. *)
Definition apply_berechne_qualitaet (df : list Variante)
    : result (list float) :=
  match df with
  | [] => apply_empty
  | _ :: _ => mapM berechne_qualitaet df
  end.

(** The frame handed over has the six displayed columns; the column
    "Qualitaet" is added to it and left out of the data of the table. *)
Definition farbige_und_zentrierte_formatierung (df : list Variante)
    : result Styler :=
  qualitaet <- apply_berechne_qualitaet df ;;
  let spalte := map farbe_und_zentrierung qualitaet in
  Ok {| data := map zellen df;
        styles := map (fun _ => spalte) anzeige_spalten;
        table_styles := zentriert |}.

(** [frame[[...six names...]]] *)
Definition getitem_columns (frame : Frame) : result (list Variante) :=
  match frame with
  | NoColumns => Raise KeyError
  | Rows rows => Ok rows
  end.

(** A tab from its filter to its table: the filter, the selection of the
    displayed columns, the formatting of a copy. *)
Definition tabelle (i : Invocation) (g : Globals) : result (Globals * Styler) :=
  g' <- run i g ;;
  match filtered i g' with
  | Some frame =>
      result_display <- getitem_columns frame ;;
      styled <- farbige_und_zentrierte_formatierung result_display ;;
      Ok (g', styled)
  | None => Raise KeyError
  end.

End Formatierung.

(** ** Vocabulary of the further properties *)

(** A pole count the quality factor can work with: a number whose nearest
    integer is not 0. *)
Definition scorable (v : value) : bool :=
  match v with
  | VFloat (Fin q) => negb (Z.eqb (round_half_even q) 0)
  | _ => false
  end.

(** The nearest integer of a cell that holds a number. *)
Definition rounded (v : value) : Z :=
  match v with
  | VFloat (Fin q) => round_half_even q
  | _ => 0%Z
  end.

(** A row the quality factor can work with: both pole counts are scorable
    and their greatest common divisor is not too large for a float, as is
    the case for any two cells one of which holds a binary64 or a 64-bit
    integer. *)
Definition scorable_row (r : Variante) : bool :=
  scorable (Modulatorzahl r) && scorable (Polzahl_Rotor r)
  && (Z.gcd (rounded (Modulatorzahl r)) (rounded (Polzahl_Rotor r))
      <? float_limit)%Z.


(** A record in the middle of the gear ratios of [sample_records] whose
    modulator count is 0. *)
Definition zero_modulator_record : Variante :=
  {| Spalte := 3; Polzahl_Stator := int 10; Polzahl_Rotor := int 4;
     Modulatorzahl := int 0; Uebersetzung := int 2;
     Drehmoment_Modulator := int 1; Drehmoment_Rotor := int 1 |}.

(** The records of one column of the sheet. *)
Definition records_of_column (c : nat) (rs : list Variante) : list Variante :=
  filter (fun r => Spalte r =? c) rs.

(** The fields a tab filters on, and whether their columns are free of
    texts. *)
Definition fields_of (i : Invocation) : list Field :=
  map (fun t => fst (fst t)) (triples_of i).

Definition text_free (f : Field) (records : list Variante) : bool :=
  forallb (fun r => is_float (field_value f r)) records.

Definition filterable (i : Invocation) (records : list Variante) : bool :=
  forallb (fun f => text_free f records) (fields_of i).

(** The two comparisons of one triple and the conjunction of their masks,
    as every tab writes them. *)
Definition triple_mask (rows : list Variante) (t : Triple)
    : result (list bool) :=
  let '(f, target, tolerance) := t in
  m1 <- column_ge (Rows rows) (field_value f) (fsub target tolerance) ;;
  m2 <- column_le (Rows rows) (field_value f) (fadd target tolerance) ;;
  Ok (mask_and m1 m2).

(** The assignment a tab makes. *)
Definition assign (i : Invocation) (g : Globals) (frame : Frame) : Globals :=
  match i with
  | Uebersetzung_tab _ _ => set_gear_ratio_filtered g frame
  | Rotor_tab _ _ => set_torque_filtered g frame
  | Modulator_tab _ _ => set_torque_filtered_MOD g frame
  | Combo1_tab _ _ _ _ | Combo2_tab _ _ _ _ | Combo3_tab _ _ _ _ =>
      set_combo_filtered g frame
  end.

(** Two tabs that assign the same variable. *)
Definition same_variable (i j : Invocation) : bool :=
  match i, j with
  | Uebersetzung_tab _ _, Uebersetzung_tab _ _ => true
  | Rotor_tab _ _, Rotor_tab _ _ => true
  | Modulator_tab _ _, Modulator_tab _ _ => true
  | (Combo1_tab _ _ _ _ | Combo2_tab _ _ _ _ | Combo3_tab _ _ _ _),
    (Combo1_tab _ _ _ _ | Combo2_tab _ _ _ _ | Combo3_tab _ _ _ _) => true
  | _, _ => false
  end.

(** A rational that is a binary64 number. *)
Definition is_binary64 (q : Q) : bool := feq (binary64 q) (Fin q).

(** The record's field is the finite target itself, a binary64 number, and
    the tolerance is a number that is not negative. *)
Definition hits_target (r : Variante) (t : Triple) : bool :=
  match t with
  | (f, Fin target, Fin tolerance) =>
      is_binary64 target
      && Qle_bool 0 tolerance
      && match field_value f r with
         | VFloat (Fin x) => Qeq_bool x target
         | _ => false
         end
  | _ => false
  end.

(** The second triple has the field and the target of the first and a
    tolerance at least as large. *)
Definition wider (t t' : Triple) : bool :=
  match t, t' with
  | (f, Fin x, Fin tol), (f', Fin x', Fin tol') =>
      match f, f' with
      | gearRatio, gearRatio | modulatorTorque, modulatorTorque
      | rotorTorque, rotorTorque => Qeq_bool x x' && Qle_bool tol tol'
      | _, _ => false
      end
  | _, _ => false
  end.

Fixpoint all_wider (ts ts' : list Triple) : bool :=
  match ts, ts' with
  | [], [] => true
  | t :: ts, t' :: ts' => wider t t' && all_wider ts ts'
  | _, _ => false
  end.

(** A triple whose target or tolerance is NaN. *)
Definition has_nan (t : Triple) : bool :=
  match t with
  | (_, NaN, _) | (_, _, NaN) => true
  | _ => false
  end.

(** The two bounds a tab computes from a triple, and whether they are two
    different floats. *)
Definition lower_bound (t : Triple) : float :=
  let '(_, target, tolerance) := t in fsub target tolerance.

Definition upper_bound (t : Triple) : float :=
  let '(_, target, tolerance) := t in fadd target tolerance.



(** The two single-field tabs a combined tab is made of. *)
Definition parts (i : Invocation) : option (Invocation * Invocation) :=
  match i with
  | Combo1_tab r ti x t => Some (Uebersetzung_tab r ti, Rotor_tab x t)
  | Combo2_tab r ti x t => Some (Uebersetzung_tab r ti, Modulator_tab x t)
  | Combo3_tab xm tm xr tr => Some (Modulator_tab xm tm, Rotor_tab xr tr)
  | _ => None
  end.

(** * Properties *)

(** ** Rounding to the nearest integer *)

Section Rounding.

Local Open Scope Q_scope.

Example round_half_even_ties :
  round_half_even (5 # 2) = 2%Z /\ round_half_even (7 # 2) = 4%Z
  /\ round_half_even (41 # 2) = 20%Z /\ round_half_even (1 # 2) = 0%Z
  /\ round_half_even (-5 # 2) = (-2)%Z /\ round_half_even (13 # 5) = 3%Z.
Proof. repeat split; reflexivity. Qed.

(** [round] and the floor. *)
Lemma round_half_even_floor (q : Q) :
  (q - inject_Z (Qfloor q) < 1 # 2 /\ round_half_even q = Qfloor q)
  \/ (1 # 2 < q - inject_Z (Qfloor q) /\ round_half_even q = (Qfloor q + 1)%Z)
  \/ (q - inject_Z (Qfloor q) == 1 # 2
      /\ round_half_even q
         = if Z.even (Qfloor q) then Qfloor q else (Qfloor q + 1)%Z).
Proof.
  unfold round_half_even. cbv zeta.
  destruct (Qcompare_spec (q - inject_Z (Qfloor q)) (1 # 2)) as [E | L | G].
  - right. right. split; [exact E | reflexivity].
  - left. split; [exact L | reflexivity].
  - right. left. split; [exact G | reflexivity].
Qed.

Lemma floor_bounds (q : Q) :
  inject_Z (Qfloor q) <= q /\ q < inject_Z (Qfloor q) + 1.
Proof.
  split; [apply Qfloor_le |].
  pose proof (Qlt_floor q) as H. rewrite inject_Z_plus in H. exact H.
Qed.

Lemma round_half_even_comp (x y : Q) :
  x == y -> round_half_even x = round_half_even y.
Proof.
  intros E. unfold round_half_even. rewrite (Qfloor_comp x y E).
  assert (C : (x - inject_Z (Qfloor y) ?= 1 # 2)
              = (y - inject_Z (Qfloor y) ?= 1 # 2)).
  { apply Qcompare_comp; [rewrite E |]; reflexivity. }
  rewrite C. reflexivity.
Qed.

(** [round] is monotone. *)
Lemma round_half_even_mono (x y : Q) :
  x <= y -> (round_half_even x <= round_half_even y)%Z.
Proof.
  intros Hxy. pose proof (Qfloor_resp_le x y Hxy) as Hf.
  pose proof (floor_bounds x) as [Bx1 Bx2].
  pose proof (floor_bounds y) as [By1 By2].
  destruct (Z.eq_dec (Qfloor x) (Qfloor y)) as [E | N].
  - destruct (round_half_even_floor x) as [[Lx ->] | [[Gx ->] | [Ex ->]]];
      destruct (round_half_even_floor y) as [[Ly ->] | [[Gy ->] | [Ey ->]]];
      rewrite <- ?E in *; try lia; try (exfalso; lra);
      destruct (Z.even (Qfloor x)); lia.
  - assert (Hlt : (Qfloor x + 1 <= Qfloor y)%Z) by lia.
    destruct (round_half_even_floor x) as [[_ ->] | [[_ ->] | [_ ->]]];
      destruct (round_half_even_floor y) as [[_ ->] | [[_ ->] | [_ ->]]];
      try destruct (Z.even (Qfloor x)); try destruct (Z.even (Qfloor y)); lia.
Qed.
Lemma round_half_even_inject_Z (z : Z) : round_half_even (inject_Z z) = z.
Proof.
  destruct (round_half_even_floor (inject_Z z)) as [[_ E] | [[G _] | [G _]]];
    rewrite Qfloor_Z in *; [exact E | |]; exfalso; lra.
Qed.

Lemma round_half_even_whole (q : Q) (z : Z) :
  q == inject_Z z -> round_half_even q = z.
Proof.
  intros E. rewrite (round_half_even_comp _ _ E).
  apply round_half_even_inject_Z.
Qed.

Lemma round_half_even_nearest (q : Q) : nearest_integer q (round_half_even q).
Proof.
  pose proof (floor_bounds q) as [B1 B2]. unfold nearest_integer.
  destruct (round_half_even_floor q) as [[L ->] | [[G ->] | [E ->]]].
  - split.
    + apply Qabs_Qle_condition. split; lra.
    + intros H. rewrite Qabs_pos in H by lra. exfalso. lra.
  - rewrite inject_Z_plus. change (inject_Z 1) with 1. split.
    + apply Qabs_Qle_condition. split; lra.
    + intros H. rewrite Qabs_neg in H by lra. exfalso. lra.
  - destruct (Z.even (Qfloor q)) eqn:Ev.
    + split; [| intros _; exact Ev].
      apply Qabs_Qle_condition. split; lra.
    + split.
      * rewrite inject_Z_plus. change (inject_Z 1) with 1.
        apply Qabs_Qle_condition. split; lra.
      * intros _. rewrite Z.even_add, Ev. reflexivity.
Qed.

(** There is one nearest integer only. *)
Lemma nearest_integer_unique (q : Q) (z z' : Z) :
  nearest_integer q z -> nearest_integer q z' -> z = z'.
Proof.
  intros [H1 E1] [H2 E2].
  apply Qabs_Qle_condition in H1. apply Qabs_Qle_condition in H2.
  assert (D : (z' - 1 <= z <= z' + 1)%Z).
  { assert (Q1 : inject_Z (z' - 1) < inject_Z (z + 1)).
    { unfold Z.sub. rewrite !inject_Z_plus, inject_Z_opp.
      change (inject_Z 1) with 1. lra. }
    assert (Q2 : inject_Z (z - 1) < inject_Z (z' + 1)).
    { unfold Z.sub. rewrite !inject_Z_plus, inject_Z_opp.
      change (inject_Z 1) with 1. lra. }
    rewrite <- Zlt_Qlt in Q1, Q2. lia. }
  destruct (Z.eq_dec z z') as [E | N]; [exact E | exfalso].
  assert (C : z = (z' + 1)%Z \/ z' = (z + 1)%Z) by lia.
  destruct C as [-> | ->].
  - rewrite inject_Z_plus in *. change (inject_Z 1) with 1 in *.
    assert (A1 : Qabs (q - (inject_Z z' + 1)) == 1 # 2).
    { rewrite Qabs_neg by lra. lra. }
    assert (A2 : Qabs (q - inject_Z z') == 1 # 2).
    { rewrite Qabs_pos by lra. lra. }
    specialize (E1 A1). specialize (E2 A2).
    rewrite Z.even_add, E2 in E1. discriminate.
  - rewrite inject_Z_plus in *. change (inject_Z 1) with 1 in *.
    assert (A1 : Qabs (q - (inject_Z z + 1)) == 1 # 2).
    { rewrite Qabs_neg by lra. lra. }
    assert (A2 : Qabs (q - inject_Z z) == 1 # 2).
    { rewrite Qabs_pos by lra. lra. }
    specialize (E2 A1). specialize (E1 A2).
    rewrite Z.even_add, E1 in E2. discriminate.
Qed.
End Rounding.

(** ** Powers of two and binades *)

Section Powers.

Local Open Scope Q_scope.

Lemma pow2_pos (k : Z) : 0 < 2 ^ k.
Proof. apply Qpower_0_lt. reflexivity. Qed.

Lemma pow2_add (a b : Z) : 2 ^ (a + b) == 2 ^ a * 2 ^ b.
Proof. apply Qpower_plus. discriminate. Qed.

Lemma pow2_le (a b : Z) : (a <= b)%Z -> 2 ^ a <= 2 ^ b.
Proof. intros H. apply Qpower_le_compat_l; [exact H | discriminate]. Qed.

Lemma pow2_lt (a b : Z) : (a < b)%Z -> 2 ^ a < 2 ^ b.
Proof. intros H. apply Qpower_lt_compat_l; [exact H | reflexivity]. Qed.

Lemma pow2_lt_inv (a b : Z) : 2 ^ a < 2 ^ b -> (a < b)%Z.
Proof. intros H. apply (Qpower_lt_compat_l_inv 2); [exact H | reflexivity]. Qed.

Lemma pow2_inject_Z (k : Z) : (0 <= k)%Z -> 2 ^ k == inject_Z (2 ^ k).
Proof. intros H. symmetry. apply (Zpower_Qpower 2 k H). Qed.

Lemma Qnum_Qden (q : Q) : q * inject_Z (Z.pos (Qden q)) == inject_Z (Qnum q).
Proof.
  destruct q as [n d]. unfold Qeq, Qmult, inject_Z. simpl. lia.
Qed.

(** [ilog2 q] is the exponent of the binade of [q]. *)
Lemma ilog2_spec (q : Q) :
  0 < q -> 2 ^ ilog2 q <= q /\ q < 2 ^ (ilog2 q + 1).
Proof.
  intros Hq.
  assert (Hn : (0 < Qnum q)%Z).
  { destruct q as [n d]. unfold Qlt in Hq. simpl in *. lia. }
  pose proof (Z.log2_spec (Qnum q) Hn) as [Ln Un].
  pose proof (Z.log2_spec (Z.pos (Qden q)) (Pos2Z.is_pos _)) as [Ld Ud].
  pose proof (Z.log2_nonneg (Qnum q)) as Nn.
  pose proof (Z.log2_nonneg (Z.pos (Qden q))) as Nd.
  rewrite Zle_Qle in Ln, Ld. rewrite Zlt_Qlt in Un, Ud.
  rewrite <- Z.add_1_r in Un, Ud.
  rewrite <- pow2_inject_Z in Ln, Un, Ld, Ud by lia.
  pose proof (Qnum_Qden q) as E.
  set (ln := Z.log2 (Qnum q)) in *. set (ld := Z.log2 (Z.pos (Qden q))) in *.
  set (d := inject_Z (Z.pos (Qden q))) in *. set (n := inject_Z (Qnum q)) in *.
  assert (Hd : 0 < d) by (unfold d, Qlt; simpl; lia).
  (* the two bounds that always hold *)
  assert (Up : q < 2 ^ (ln - ld + 1)).
  { apply (Qmult_lt_r _ _ (2 ^ ld) (pow2_pos ld)).
    rewrite <- pow2_add. replace (ln - ld + 1 + ld)%Z with (ln + 1)%Z by lia.
    apply Qle_lt_trans with (q * d); [| rewrite E; exact Un].
    apply Qmult_le_l; [exact Hq | exact Ld]. }
  assert (Lo : 2 ^ (ln - ld - 1) <= q).
  { apply Qlt_le_weak.
    apply (Qmult_lt_r _ _ (2 ^ (ld + 1)) (pow2_pos (ld + 1))).
    rewrite <- pow2_add. replace (ln - ld - 1 + (ld + 1))%Z with ln by lia.
    apply Qle_lt_trans with (q * d); [rewrite E; exact Ln |].
    apply Qmult_lt_l; [exact Hq | exact Ud]. }
  unfold ilog2. fold ln ld.
  destruct (Qle_bool (2 ^ (ln - ld)) q) eqn:B.
  - apply Qle_bool_iff in B. split; assumption.
  - split; [exact Lo |].
    replace (ln - ld - 1 + 1)%Z with (ln - ld)%Z by lia.
    apply Qnot_le_lt. intros C. apply Qle_bool_iff in C. congruence.
Qed.

Lemma ilog2_mono (x y : Q) : 0 < x -> x <= y -> (ilog2 x <= ilog2 y)%Z.
Proof.
  intros Hx Hxy. assert (Hy : 0 < y) by lra.
  destruct (ilog2_spec x Hx) as [Lx _]. destruct (ilog2_spec y Hy) as [_ Uy].
  assert (H : 2 ^ ilog2 x < 2 ^ (ilog2 y + 1)) by lra.
  apply pow2_lt_inv in H. lia.
Qed.

(** The binade of [q] from bounds on [q]. *)
Lemma ilog2_lt (q : Q) (k : Z) : 0 < q -> q < 2 ^ k -> (ilog2 q < k)%Z.
Proof.
  intros Hq H. destruct (ilog2_spec q Hq) as [L _].
  apply pow2_lt_inv. lra.
Qed.

Lemma ilog2_ge (q : Q) (k : Z) : 0 < q -> 2 ^ k <= q -> (k <= ilog2 q)%Z.
Proof.
  intros Hq H. destruct (ilog2_spec q Hq) as [_ U].
  assert (H' : 2 ^ k < 2 ^ (ilog2 q + 1)) by lra.
  apply pow2_lt_inv in H'. lia.
Qed.

End Powers.

(** ** Rounding to binary64 *)

Section Significand.

Local Open Scope Q_scope.

Lemma ulp_exponent_mono (x y : Q) :
  0 < x -> x <= y -> (ulp_exponent x <= ulp_exponent y)%Z.
Proof.
  intros Hx Hxy. pose proof (ilog2_mono x y Hx Hxy). unfold ulp_exponent. lia.
Qed.

(** The scaled number has at most 53 bits before the point, and exactly 53
    unless the exponent is the smallest one. *)
Lemma scaled_lt (q : Q) : 0 < q -> q / 2 ^ ulp_exponent q < 2 ^ prec.
Proof.
  intros Hq. destruct (ilog2_spec q Hq) as [_ U].
  apply Qlt_shift_div_r; [apply pow2_pos |]. rewrite <- pow2_add.
  apply Qlt_le_trans with (2 ^ (ilog2 q + 1)); [exact U |].
  apply pow2_le. unfold ulp_exponent, prec. lia.
Qed.

Lemma scaled_ge (q : Q) :
  0 < q -> (emin <= ilog2 q - (prec - 1))%Z ->
  2 ^ (prec - 1) <= q / 2 ^ ulp_exponent q.
Proof.
  intros Hq He. destruct (ilog2_spec q Hq) as [L _].
  apply Qle_shift_div_l; [apply pow2_pos |]. rewrite <- pow2_add.
  replace (prec - 1 + ulp_exponent q)%Z with (ilog2 q);
    [exact L | unfold ulp_exponent; lia].
Qed.

Lemma significand_le (q : Q) :
  0 < q -> (round_half_even (q / 2 ^ ulp_exponent q) <= 2 ^ prec)%Z.
Proof.
  intros Hq. rewrite <- (round_half_even_inject_Z (2 ^ prec)).
  apply round_half_even_mono. rewrite <- pow2_inject_Z by (unfold prec; lia).
  apply Qlt_le_weak, scaled_lt, Hq.
Qed.

Lemma significand_ge (q : Q) :
  0 < q -> (emin <= ilog2 q - (prec - 1))%Z ->
  (2 ^ (prec - 1) <= round_half_even (q / 2 ^ ulp_exponent q))%Z.
Proof.
  intros Hq He. rewrite <- (round_half_even_inject_Z (2 ^ (prec - 1))).
  apply round_half_even_mono. rewrite <- pow2_inject_Z by (unfold prec; lia).
  apply scaled_ge; assumption.
Qed.

Lemma significand_nonneg (q : Q) :
  0 < q -> (0 <= round_half_even (q / 2 ^ ulp_exponent q))%Z.
Proof.
  intros Hq. rewrite <- (round_half_even_inject_Z 0).
  apply round_half_even_mono. change (inject_Z 0) with 0.
  apply Qle_shift_div_l; [apply pow2_pos | lra].
Qed.

Lemma round_significand_nonneg (q : Q) : 0 < q -> 0 <= round_significand q.
Proof.
  intros Hq. unfold round_significand. apply Qmult_le_0_compat.
  - change 0 with (inject_Z 0). rewrite <- Zle_Qle.
    apply significand_nonneg, Hq.
  - apply Qlt_le_weak, pow2_pos.
Qed.

(** Rounding a positive number to its last place is monotone. *)
Lemma round_significand_mono (x y : Q) :
  0 < x -> x <= y -> round_significand x <= round_significand y.
Proof.
  intros Hx Hxy. assert (Hy : 0 < y) by lra.
  pose proof (ulp_exponent_mono x y Hx Hxy) as He.
  unfold round_significand.
  destruct (Z.eq_dec (ulp_exponent x) (ulp_exponent y)) as [E | N].
  - rewrite E. apply Qmult_le_compat_r; [| apply Qlt_le_weak, pow2_pos].
    rewrite <- Zle_Qle. apply round_half_even_mono.
    apply Qmult_le_compat_r; [exact Hxy |].
    apply Qlt_le_weak, Qinv_lt_0_compat, pow2_pos.
  - assert (Hu : (emin <= ilog2 y - (prec - 1))%Z).
    { unfold ulp_exponent in *. lia. }
    pose proof (significand_le x Hx) as Mx.
    pose proof (significand_ge y Hy Hu) as My.
    rewrite Zle_Qle in Mx, My.
    rewrite <- !pow2_inject_Z in Mx, My by (unfold prec; lia).
    apply Qle_trans with (2 ^ prec * 2 ^ ulp_exponent x).
    { apply Qmult_le_compat_r; [exact Mx | apply Qlt_le_weak, pow2_pos]. }
    apply Qle_trans with (2 ^ (prec - 1) * 2 ^ ulp_exponent y).
    { rewrite <- !pow2_add. apply pow2_le. lia. }
    apply Qmult_le_compat_r; [exact My | apply Qlt_le_weak, pow2_pos].
Qed.

End Significand.

Section Binary64.

Local Open Scope Q_scope.

Lemma fle_trans (a b c : float) :
  fle a b = true -> fle b c = true -> fle a c = true.
Proof.
  destruct a as [x | | |], b as [y | | |], c as [z | | |];
    cbn; try discriminate; try reflexivity.
  intros H1 H2. apply Qle_bool_iff in H1. apply Qle_bool_iff in H2.
  apply Qle_bool_iff. lra.
Qed.

Lemma fle_fneg (a b : float) : fle a b = true -> fle (fneg b) (fneg a) = true.
Proof.
  destruct a as [x | | |], b as [y | | |];
    cbn; try discriminate; try reflexivity.
  intros H. apply Qle_bool_iff in H. apply Qle_bool_iff. lra.
Qed.

Lemma binary64_pos_nonneg (q : Q) : 0 < q -> fle (Fin 0) (binary64_pos q) = true.
Proof.
  intros Hq. unfold binary64_pos.
  destruct (Qle_bool (2 ^ emax) (round_significand q)); [reflexivity |].
  cbn [fle]. apply Qle_bool_iff. rewrite Qred_correct.
  apply round_significand_nonneg, Hq.
Qed.

Lemma binary64_pos_mono (x y : Q) :
  0 < x -> x <= y -> fle (binary64_pos x) (binary64_pos y) = true.
Proof.
  intros Hx Hxy. pose proof (round_significand_mono x y Hx Hxy) as H.
  unfold binary64_pos.
  destruct (Qle_bool (2 ^ emax) (round_significand x)) eqn:Ox;
    destruct (Qle_bool (2 ^ emax) (round_significand y)) eqn:Oy;
    try reflexivity.
  - apply Qle_bool_iff in Ox.
    assert (C : Qle_bool (2 ^ emax) (round_significand y) = true).
    { apply Qle_bool_iff. lra. }
    congruence.
  - cbn [fle]. apply Qle_bool_iff. apply Qred_le. exact H.
Qed.

(** Equal rationals round to the same float. *)
Lemma binary64_comp (x y : Q) : x == y -> binary64 x = binary64 y.
Proof.
  intros E. unfold binary64. rewrite (Qred_complete x y E). reflexivity.
Qed.

(** Rounding to binary64 is monotone. *)
Lemma binary64_mono (x y : Q) : x <= y -> fle (binary64 x) (binary64 y) = true.
Proof.
  intros Hxy. unfold binary64.
  assert (H : Qred x <= Qred y) by (apply Qred_le; exact Hxy).
  set (x' := Qred x) in *. set (y' := Qred y) in *. cbv zeta.
  destruct (Qcompare_spec x' 0) as [Ex | Lx | Gx];
    destruct (Qcompare_spec y' 0) as [Ey | Ly | Gy];
    try (exfalso; lra).
  - reflexivity.
  - apply binary64_pos_nonneg, Gy.
  - apply (fle_fneg (Fin 0)), binary64_pos_nonneg. lra.
  - apply fle_fneg, binary64_pos_mono; lra.
  - apply fle_trans with (Fin 0).
    + apply (fle_fneg (Fin 0)), binary64_pos_nonneg. lra.
    + apply binary64_pos_nonneg, Gy.
  - apply binary64_pos_mono; lra.
Qed.

End Binary64.

Section Integers.

Local Open Scope Q_scope.

Lemma Qred_inject_Z (z : Z) : Qred (inject_Z z) = inject_Z z.
Proof.
  unfold Qred, inject_Z.
  pose proof (Z.ggcd_gcd z 1) as Hg.
  pose proof (Z.ggcd_correct_divisors z 1) as Hd.
  destruct (Z.ggcd z 1) as [g [aa bb]]. simpl in *.
  rewrite Z.gcd_1_r in Hg. subst g. destruct Hd as [Ha Hb].
  replace aa with z by lia. replace bb with 1%Z by lia. reflexivity.
Qed.

Lemma Qred_whole (q : Q) (z : Z) : q == inject_Z z -> Qred q = inject_Z z.
Proof.
  intros E. rewrite (Qred_complete _ _ E). apply Qred_inject_Z.
Qed.

Lemma pow2_opp (k : Z) : 2 ^ (- k) * 2 ^ k == 1.
Proof.
  rewrite <- pow2_add. replace (- k + k)%Z with 0%Z by lia. reflexivity.
Qed.

(** A positive integer rounded to its last place is a whole number again:
    the integer itself up to 2^53, and not below 2^53 from there on. *)
Lemma round_significand_whole (z : Z) :
  (1 <= z)%Z ->
  exists g : Z,
    round_significand (inject_Z z) == inject_Z g
    /\ (1 <= g)%Z
    /\ ((z <= 2 ^ prec)%Z -> g = z)
    /\ ((2 ^ prec <= z)%Z -> (2 ^ prec <= g)%Z).
Proof.
  intros Hz. set (q := inject_Z z).
  assert (Hq : 0 < q).
  { unfold q. change 0 with (inject_Z 0). rewrite <- Zlt_Qlt. lia. }
  assert (H1 : 2 ^ 0 <= q).
  { unfold q. change (2 ^ 0) with (inject_Z 1). rewrite <- Zle_Qle. exact Hz. }
  pose proof (ilog2_ge q 0 Hq H1) as K0.
  destruct (Z.lt_trichotomy z (2 ^ prec)) as [Lt | [Eq | Gt]].
  - (* below 2^53 the scaled number is an integer *)
    assert (Hlt : q < 2 ^ prec).
    { rewrite pow2_inject_Z by (unfold prec; lia). unfold q.
      rewrite <- Zlt_Qlt. exact Lt. }
    pose proof (ilog2_lt q prec Hq Hlt) as K1.
    assert (He : ulp_exponent q = (ilog2 q - (prec - 1))%Z).
    { unfold ulp_exponent, emin, prec in *. lia. }
    set (e := ulp_exponent q) in *.
    assert (Hs : q / 2 ^ e == inject_Z (z * 2 ^ (- e))).
    { rewrite inject_Z_mult, <- pow2_inject_Z by (unfold prec in *; lia).
      unfold Qdiv. fold q. apply Qmult_comp; [reflexivity |].
      symmetry. apply Qpower_opp. }
    exists z. unfold round_significand. fold e.
    rewrite (round_half_even_whole _ _ Hs).
    split; [| split; [exact Hz | split; [reflexivity | lia]]].
    rewrite inject_Z_mult, <- pow2_inject_Z by (unfold prec in *; lia).
    fold q. rewrite <- Qmult_assoc, pow2_opp. apply Qmult_1_r.
  - subst z. exists (2 ^ prec)%Z.
    split; [vm_compute; reflexivity |].
    split; [exact Hz | split; [reflexivity | lia]].
  - (* above 2^53 the last place is a whole power of two *)
    assert (Hge : 2 ^ prec <= q).
    { rewrite pow2_inject_Z by (unfold prec; lia). unfold q.
      rewrite <- Zle_Qle. lia. }
    pose proof (ilog2_ge q prec Hq Hge) as K1.
    assert (Hu : (emin <= ilog2 q - (prec - 1))%Z).
    { unfold emin, prec in *. lia. }
    pose proof (significand_ge q Hq Hu) as M.
    assert (He : (1 <= ulp_exponent q)%Z).
    { unfold ulp_exponent, emin, prec in *. lia. }
    set (e := ulp_exponent q) in *.
    set (m := round_half_even (q / 2 ^ e)) in *.
    assert (P : (2 ^ 1 <= 2 ^ e)%Z) by (apply Z.pow_le_mono_r; lia).
    exists (m * 2 ^ e)%Z. unfold round_significand. fold e m.
    split; [rewrite inject_Z_mult, <- pow2_inject_Z by lia; reflexivity |].
    assert (B : (2 ^ prec <= m * 2 ^ e)%Z).
    { change (2 ^ prec)%Z with (2 ^ (prec - 1) * 2 ^ 1)%Z.
      apply Z.mul_le_mono_nonneg; lia. }
    split; [| split; [lia | intros _; exact B]].
    change (2 ^ prec)%Z with 9007199254740992%Z in B. lia.
Qed.

Lemma binary64_whole (z : Z) :
  (1 <= z)%Z ->
  binary64 (inject_Z z) = PInf
  \/ exists g : Z,
       binary64 (inject_Z z) = Fin (inject_Z g)
       /\ (1 <= g)%Z
       /\ ((z <= 2 ^ prec)%Z -> g = z)
       /\ ((2 ^ prec <= z)%Z -> (2 ^ prec <= g)%Z).
Proof.
  intros Hz. unfold binary64. rewrite Qred_inject_Z. cbv zeta.
  assert (C : (inject_Z z ?= 0) = Gt).
  { apply Qgt_alt. change 0 with (inject_Z 0). rewrite <- Zlt_Qlt. lia. }
  rewrite C. unfold binary64_pos.
  destruct (Qle_bool (2 ^ emax) (round_significand (inject_Z z)));
    [left; reflexivity | right].
  destruct (round_significand_whole z Hz) as (g & E & Hg).
  exists g. split; [| exact Hg]. f_equal. apply Qred_whole, E.
Qed.

Lemma fle_PInf (a : float) : fle PInf a = true -> a = PInf.
Proof. destruct a; cbn; try discriminate; reflexivity. Qed.

(** An integer is turned into a float exactly when it is below
    2^1024 - 2^970; from there on it rounds to 2^1024, which is out of
    range. *)
Lemma binary64_overflow (z : Z) :
  (float_limit <= z)%Z -> binary64 (inject_Z z) = PInf.
Proof.
  intros H. apply fle_PInf.
  assert (E : binary64 (inject_Z float_limit) = PInf)
    by (vm_compute; reflexivity).
  rewrite <- E. apply binary64_mono. rewrite <- Zle_Qle. exact H.
Qed.

Lemma binary64_in_range (z : Z) :
  (1 <= z < float_limit)%Z ->
  exists g : Z,
    binary64 (inject_Z z) = Fin (inject_Z g)
    /\ (1 <= g)%Z
    /\ ((z <= 2 ^ prec)%Z -> g = z)
    /\ ((2 ^ prec <= z)%Z -> (2 ^ prec <= g)%Z).
Proof.
  intros [H1 H2]. destruct (binary64_whole z H1) as [E | H]; [| exact H].
  exfalso.
  assert (M : fle (binary64 (inject_Z z))
                  (binary64 (inject_Z (float_limit - 1))) = true).
  { apply binary64_mono. rewrite <- Zle_Qle. lia. }
  rewrite E in M. apply fle_PInf in M.
  revert M. vm_compute. discriminate.
Qed.

End Integers.

Section Nearest.

Local Open Scope Q_scope.

(** No integer is nearer than the nearest integer, and one that is as near
    is its odd neighbour. *)
Lemma round_half_even_closest (s : Q) (n : Z) :
  Qabs (s - inject_Z (round_half_even s)) <= Qabs (s - inject_Z n)
  /\ (Qabs (s - inject_Z n) == Qabs (s - inject_Z (round_half_even s)) ->
      n <> round_half_even s ->
      Z.even (round_half_even s) = true
      /\ (n = round_half_even s + 1 \/ n = round_half_even s - 1)%Z).
Proof.
  destruct (round_half_even_nearest s) as [H1 H2].
  set (m := round_half_even s) in *. clearbody m.
  destruct (Z.eq_dec n m) as [-> | N].
  { split; [apply Qle_refl | intros _ C; contradiction]. }
  pose proof H1 as B. apply Qabs_Qle_condition in B. destruct B as [B1 B2].
  assert (Far : 1 # 2 <= Qabs (s - inject_Z n)
                /\ (Qabs (s - inject_Z n) <= 1 # 2 ->
                    (n = m + 1 \/ n = m - 1)%Z)).
  { destruct (Z.lt_ge_cases n m) as [L | G].
    - assert (Q1 : inject_Z n <= inject_Z m - 1).
      { change 1 with (inject_Z 1). unfold Qminus.
        rewrite <- inject_Z_opp, <- inject_Z_plus, <- Zle_Qle. lia. }
      split; [apply Qabs_ge; lra |].
      intros C. apply Qabs_Qle_condition in C. right.
      assert (Q2 : inject_Z (m - 1) <= inject_Z n).
      { unfold Z.sub. rewrite inject_Z_plus, inject_Z_opp.
        change (inject_Z 1) with 1. lra. }
      rewrite <- Zle_Qle in Q2. lia.
    - assert (Q1 : inject_Z m + 1 <= inject_Z n).
      { change 1 with (inject_Z 1).
        rewrite <- inject_Z_plus, <- Zle_Qle. lia. }
      split; [rewrite Qabs_neg by lra; lra |].
      intros C. apply Qabs_Qle_condition in C. left.
      assert (Q2 : inject_Z n <= inject_Z (m + 1)).
      { rewrite inject_Z_plus. change (inject_Z 1) with 1. lra. }
      rewrite <- Zle_Qle in Q2. lia. }
  destruct Far as [F1 F2]. split; [lra |].
  intros E _. split.
  - apply H2. lra.
  - apply F2. lra.
Qed.


Lemma scaled_back (q c : Q) : 0 < c -> q / c * c == q.
Proof. intros Hc. field. lra. Qed.

Lemma scaled_distance (s c : Q) (n : Z) :
  0 < c -> Qabs (inject_Z n * c - s * c) == Qabs (s - inject_Z n) * c.
Proof.
  intros Hc.
  setoid_replace (inject_Z n * c - s * c) with (- ((s - inject_Z n) * c))
    by ring.
  rewrite Qabs_opp, Qabs_Qmult, (Qabs_pos c) by lra. reflexivity.
Qed.

(** Among the multiples of the last place none is nearer than the rounded
    number, and one that is as near is its neighbour, the rounded number
    being the even one. *)
Lemma round_significand_closest (q : Q) (n : Z) :
  0 < q ->
  Qabs (round_significand q - q)
  <= Qabs (inject_Z n * 2 ^ ulp_exponent q - q)
  /\ (Qabs (inject_Z n * 2 ^ ulp_exponent q - q)
      == Qabs (round_significand q - q) ->
      ~ inject_Z n * 2 ^ ulp_exponent q == round_significand q ->
      exists m : Z,
        Z.even m = true
        /\ round_significand q
           == inject_Z m
              * (inject_Z n * 2 ^ ulp_exponent q - round_significand q)).
Proof.
  intros Hq. unfold round_significand.
  set (c := 2 ^ ulp_exponent q). set (s := q / c).
  assert (Hc : 0 < c) by apply pow2_pos.
  assert (Es : q == s * c) by (symmetry; apply scaled_back, Hc).
  set (m := round_half_even s).
  assert (Dm : Qabs (inject_Z m * c - q) == Qabs (s - inject_Z m) * c).
  { rewrite <- scaled_distance by exact Hc.
    apply Qabs_wd. rewrite Es at 1. reflexivity. }
  assert (Dn : Qabs (inject_Z n * c - q) == Qabs (s - inject_Z n) * c).
  { rewrite <- scaled_distance by exact Hc.
    apply Qabs_wd. rewrite Es at 1. reflexivity. }
  destruct (round_half_even_closest s n) as [Cl Tie]. fold m in Cl, Tie.
  split.
  - rewrite Dm, Dn. apply Qmult_le_compat_r; [exact Cl | lra].
  - intros E N. rewrite Dm, Dn in E.
    assert (E' : Qabs (s - inject_Z n) == Qabs (s - inject_Z m)).
    { apply (Qmult_inj_r _ _ c); [lra | exact E]. }
    assert (Nm : n <> m).
    { intros ->. apply N. reflexivity. }
    destruct (Tie E' Nm) as [Ev [-> | ->]].
    + exists m. split; [exact Ev |].
      rewrite inject_Z_plus. change (inject_Z 1) with 1. ring.
    + exists (- m)%Z. split; [rewrite Z.even_opp; exact Ev |].
      unfold Z.sub. rewrite inject_Z_plus, !inject_Z_opp.
      change (inject_Z 1) with 1. ring.
Qed.

(** A binary64 number is a multiple of the last place at [q], or lies
    below the binade of [q]. *)
Lemma binary64_number_grid (q y : Q) :
  0 < q -> binary64_number y ->
  (exists n : Z, y == inject_Z n * 2 ^ ulp_exponent q)
  \/ (Qabs y < 2 ^ ilog2 q
      /\ ulp_exponent q = (ilog2 q - (prec - 1))%Z).
Proof.
  intros Hq (m & e & Hm & He & Ey).
  destruct (Z.le_gt_cases (ulp_exponent q) e) as [L | G].
  - left. exists (m * 2 ^ (e - ulp_exponent q))%Z.
    rewrite Ey, inject_Z_mult, <- pow2_inject_Z by lia.
    rewrite <- Qmult_assoc, <- pow2_add.
    replace (e - ulp_exponent q + ulp_exponent q)%Z with e by lia.
    reflexivity.
  - right.
    assert (Eu : ulp_exponent q = (ilog2 q - (prec - 1))%Z).
    { unfold ulp_exponent in *. lia. }
    split; [| exact Eu].
    assert (A : Qabs y == inject_Z (Z.abs m) * 2 ^ e).
    { rewrite Ey, Qabs_Qmult, (Qabs_pos (2 ^ e))
        by (apply Qlt_le_weak, pow2_pos). reflexivity. }
    rewrite A.
    apply Qlt_le_trans with (2 ^ prec * 2 ^ e).
    + apply Qmult_lt_compat_r; [apply pow2_pos |].
      rewrite pow2_inject_Z by (unfold prec; lia).
      rewrite <- Zlt_Qlt. exact Hm.
    + rewrite <- pow2_add. apply pow2_le. unfold prec in *. lia.
Qed.

(** No binary64 number is nearer to a positive rational than the rounded
    one. *)
Lemma round_significand_nearest (q y : Q) :
  0 < q -> binary64_number y ->
  Qabs (round_significand q - q) <= Qabs (y - q)
  /\ (Qabs (y - q) == Qabs (round_significand q - q) ->
      ~ y == round_significand q ->
      exists m : Z,
        Z.even m = true
        /\ round_significand q == inject_Z m * (y - round_significand q)).
Proof.
  intros Hq Hy.
  destruct (binary64_number_grid q y Hq Hy) as [[n En] | [Hb Eu]].
  - destruct (round_significand_closest q n Hq) as [Cl Tie].
    assert (D : Qabs (y - q) == Qabs (inject_Z n * 2 ^ ulp_exponent q - q)).
    { apply Qabs_wd. rewrite En. reflexivity. }
    split; [rewrite D; exact Cl |].
    intros E N. rewrite D in E.
    destruct (Tie E) as (m & Ev & Em).
    { intros C. apply N. rewrite En. exact C. }
    exists m. split; [exact Ev |]. rewrite En. exact Em.
  - (* below the binade: the bottom of the binade is nearer *)
    destruct (ilog2_spec q Hq) as [Lo _].
    assert (Ek : 2 ^ ilog2 q
                 == inject_Z (2 ^ (prec - 1)) * 2 ^ ulp_exponent q).
    { rewrite <- pow2_inject_Z by (unfold prec; lia).
      rewrite <- pow2_add. rewrite Eu.
      replace (prec - 1 + (ilog2 q - (prec - 1)))%Z with (ilog2 q) by lia.
      reflexivity. }
    destruct (round_significand_closest q (2 ^ (prec - 1)) Hq) as [Cl _].
    rewrite <- Ek in Cl.
    assert (Hy1 : y < 2 ^ ilog2 q).
    { apply Qle_lt_trans with (Qabs y); [apply Qle_Qabs | exact Hb]. }
    assert (D1 : Qabs (2 ^ ilog2 q - q) == q - 2 ^ ilog2 q).
    { rewrite Qabs_neg by lra. ring. }
    assert (D2 : Qabs (y - q) == q - y).
    { rewrite Qabs_neg by lra. ring. }
    split; [lra |]. intros E _. exfalso. lra.
Qed.


(** The rounded number is a binary64 number unless it is out of range. *)
Lemma round_significand_number (q : Q) :
  0 < q -> round_significand q < 2 ^ emax ->
  binary64_number (round_significand q).
Proof.
  intros Hq Hr. pose proof (significand_le q Hq) as Mle.
  pose proof (significand_nonneg q Hq) as M0.
  pose proof (pow2_pos (ulp_exponent q)) as Hc.
  assert (He : (emin <= ulp_exponent q)%Z) by (unfold ulp_exponent; lia).
  unfold round_significand in *.
  set (e := ulp_exponent q) in *.
  set (m := round_half_even (q / 2 ^ e)) in *.
  destruct (Z.eq_dec m (2 ^ prec)) as [Em | Nm].
  - (* the significand 2^53 is 2^52 one exponent up *)
    assert (Lt : 2 ^ (prec + e) < 2 ^ emax).
    { rewrite pow2_add, pow2_inject_Z by (unfold prec; lia).
      rewrite <- Em. exact Hr. }
    apply pow2_lt_inv in Lt.
    exists (2 ^ (prec - 1))%Z, (e + 1)%Z.
    split; [reflexivity |]. split; [unfold prec, emax in *; lia |].
    rewrite Em, <- !pow2_inject_Z by (unfold prec; lia).
    rewrite <- !pow2_add. apply Qpower_comp; [reflexivity | lia].
  - exists m, e. split; [lia |]. split; [| reflexivity].
    split; [exact He |].
    destruct (Z.le_gt_cases e (emax - prec)) as [L | G]; [exact L | exfalso].
    assert (Hu : (emin <= ilog2 q - (prec - 1))%Z).
    { unfold e, ulp_exponent, emin, emax, prec in *. lia. }
    pose proof (significand_ge q Hq Hu) as Mge. fold e m in Mge.
    assert (B : 2 ^ emax <= inject_Z m * 2 ^ e).
    { apply Qle_trans with (2 ^ (prec - 1) * 2 ^ e).
      - rewrite <- pow2_add. apply pow2_le. unfold prec, emax in *. lia.
      - apply Qmult_le_compat_r; [| lra].
        rewrite pow2_inject_Z by (unfold prec; lia).
        rewrite <- Zle_Qle. exact Mge. }
    lra.
Qed.

(** From 2^1024 - 2^970 on, and only from there, the rounded number is out
    of range. *)
Lemma round_significand_overflow (q : Q) :
  0 < q ->
  (2 ^ emax <= round_significand q <-> inject_Z float_limit <= q).
Proof.
  intros Hq. split.
  - intros Hr. apply Qnot_lt_le. intros Hlt. apply (Qle_not_lt _ _ Hr).
    pose proof (significand_le q Hq) as Mle.
    pose proof (pow2_pos (ulp_exponent q)) as Hc.
    assert (Hk : (ilog2 q < emax)%Z).
    { apply ilog2_lt; [exact Hq |].
      apply Qlt_trans with (inject_Z float_limit); [exact Hlt |].
      rewrite pow2_inject_Z by (unfold emax; lia).
      rewrite <- Zlt_Qlt. reflexivity. }
    assert (He : (ulp_exponent q <= emax - prec)%Z).
    { unfold ulp_exponent, emin, emax, prec in *. lia. }
    unfold round_significand.
    set (e := ulp_exponent q) in *.
    set (m := round_half_even (q / 2 ^ e)) in *.
    destruct (Z.eq_dec e (emax - prec)) as [Ee | Ne].
    + (* the top binade: the scaled number is below 2^53 - 1/2 *)
      assert (Hs : q / 2 ^ e < inject_Z (2 ^ prec) - (1 # 2)).
      { apply Qlt_shift_div_r; [exact Hc |].
        apply Qlt_le_trans with (inject_Z float_limit); [exact Hlt |].
        rewrite Ee. apply Qle_lteq. right. vm_compute. reflexivity. }
      destruct (round_half_even_nearest (q / 2 ^ e)) as [Hn _]. fold m in Hn.
      apply Qabs_Qle_condition in Hn. destruct Hn as [Hn _].
      assert (Hm : inject_Z m < inject_Z (2 ^ prec)) by lra.
      rewrite <- Zlt_Qlt in Hm.
      assert (Hm' : inject_Z m <= inject_Z (2 ^ prec - 1)).
      { rewrite <- Zle_Qle. lia. }
      apply Qle_lt_trans with (inject_Z (2 ^ prec - 1) * 2 ^ e).
      * apply Qmult_le_compat_r; [exact Hm' | lra].
      * rewrite Ee. vm_compute. reflexivity.
    + apply Qle_lt_trans with (2 ^ prec * 2 ^ e).
      * apply Qmult_le_compat_r; [| lra].
        rewrite pow2_inject_Z by (unfold prec; lia).
        rewrite <- Zle_Qle. exact Mle.
      * rewrite <- pow2_add. apply pow2_lt. unfold emax, prec in *. lia.
  - intros Hge.
    assert (E : round_significand (inject_Z float_limit) == 2 ^ emax)
      by (vm_compute; reflexivity).
    rewrite <- E. apply round_significand_mono; [reflexivity | exact Hge].
Qed.


Lemma binary64_number_comp (x x' : Q) :
  x == x' -> binary64_number x -> binary64_number x'.
Proof.
  intros E (m & e & Hm & He & Ex). exists m, e.
  split; [exact Hm |]. split; [exact He |]. rewrite <- E. exact Ex.
Qed.

Lemma binary64_number_opp (x : Q) : binary64_number x -> binary64_number (- x).
Proof.
  intros (m & e & Hm & He & Ex). exists (- m)%Z, e.
  split; [rewrite Z.abs_opp; exact Hm |]. split; [exact He |].
  rewrite Ex, inject_Z_opp. ring.
Qed.

Lemma nearest_binary64_comp (q q' x x' : Q) :
  q == q' -> x == x' -> nearest_binary64 q x -> nearest_binary64 q' x'.
Proof.
  intros Eq Ex [Hx H]. split; [apply (binary64_number_comp x); assumption |].
  intros y Hy. destruct (H y Hy) as [Cl Tie].
  assert (D1 : Qabs (x' - q') == Qabs (x - q)).
  { apply Qabs_wd. rewrite Eq, Ex. reflexivity. }
  assert (D2 : Qabs (y - q') == Qabs (y - q)).
  { apply Qabs_wd. rewrite Eq. reflexivity. }
  split; [rewrite D1, D2; exact Cl |].
  intros E N. rewrite D1, D2 in E.
  destruct (Tie E) as (m & Ev & Em).
  { intros C. apply N. rewrite <- Ex. exact C. }
  exists m. split; [exact Ev |]. rewrite <- Ex. exact Em.
Qed.

Lemma nearest_binary64_opp (q x : Q) :
  nearest_binary64 q x -> nearest_binary64 (- q) (- x).
Proof.
  intros [Hx H]. split; [apply binary64_number_opp, Hx |].
  intros y Hy. destruct (H (- y) (binary64_number_opp y Hy)) as [Cl Tie].
  assert (D1 : Qabs (- x - - q) == Qabs (x - q)).
  { setoid_replace (- x - - q) with (- (x - q)) by ring. apply Qabs_opp. }
  assert (D2 : Qabs (y - - q) == Qabs (- y - q)).
  { setoid_replace (y - - q) with (- (- y - q)) by ring. apply Qabs_opp. }
  split; [rewrite D1, D2; exact Cl |].
  intros E N. rewrite D1, D2 in E.
  destruct (Tie E) as (m & Ev & Em).
  { intros C. apply N. rewrite <- C. ring. }
  exists m. split; [exact Ev |].
  setoid_replace (y - - x) with (- (- y - x)) by ring.
  rewrite Em at 1. ring.
Qed.

Lemma nearest_binary64_zero (q : Q) : q == 0 -> nearest_binary64 q 0.
Proof.
  intros E. split.
  - exists 0%Z, 0%Z. split; [reflexivity |].
    split; [unfold emin, emax, prec; lia | reflexivity].
  - intros y _.
    assert (D : Qabs (0 - q) == 0) by (rewrite E; reflexivity).
    split; [rewrite D; apply Qabs_nonneg |].
    intros Ey N. exfalso. apply N. rewrite D in Ey.
    assert (A : Qabs (y - q) <= 0) by lra.
    apply Qabs_Qle_condition in A. lra.
Qed.

Lemma binary64_pos_spec (q : Q) :
  0 < q ->
  match binary64_pos q with
  | Fin x => nearest_binary64 q x /\ q < inject_Z float_limit
  | PInf => inject_Z float_limit <= q
  | _ => False
  end.
Proof.
  intros Hq. unfold binary64_pos.
  pose proof (round_significand_overflow q Hq) as Ov.
  destruct (Qle_bool (2 ^ emax) (round_significand q)) eqn:B.
  - apply Ov. apply Qle_bool_iff. exact B.
  - assert (Hr : round_significand q < 2 ^ emax).
    { apply Qnot_le_lt. intros C. apply Qle_bool_iff in C. congruence. }
    split.
    + apply (nearest_binary64_comp q q (round_significand q));
        [reflexivity | symmetry; apply Qred_correct |].
      split; [apply round_significand_number; assumption |].
      intros y Hy. apply round_significand_nearest; assumption.
    + apply Qnot_le_lt. intros C. apply (Qlt_not_le _ _ Hr). apply Ov, C.
Qed.

(** [binary64] is rounding to nearest, ties to even, of IEEE 754: a finite
    result is the binary64 number nearest to the argument, and the result is
    infinite exactly from 2^1024 - 2^970 on in absolute value. *)
Theorem binary64_spec (q : Q) : rounds_to q (binary64 q).
Proof.
  unfold rounds_to, binary64. pose proof (Qred_correct q) as E.
  set (q' := Qred q) in *. cbv zeta.
  destruct (Qcompare_spec q' 0) as [E0 | L | G].
  - split.
    + apply nearest_binary64_zero. rewrite <- E. exact E0.
    + rewrite <- E, E0. reflexivity.
  - assert (Hq : 0 < - q') by lra.
    pose proof (binary64_pos_spec (- q') Hq) as H.
    destruct (binary64_pos (- q')) as [x | | |]; cbn [fneg];
      try contradiction.
    + destruct H as [Hn Hlt]. split.
      * apply (nearest_binary64_comp (- - q') q (- x) (- x));
          [rewrite <- E; ring | reflexivity |].
        apply nearest_binary64_opp, Hn.
      * rewrite <- E, Qabs_neg by lra. exact Hlt.
    + rewrite <- E. lra.
  - pose proof (binary64_pos_spec q' G) as H.
    destruct (binary64_pos q') as [x | | |]; try contradiction.
    + destruct H as [Hn Hlt]. split.
      * apply (nearest_binary64_comp q' q x x);
          [exact E | reflexivity | exact Hn].
      * rewrite <- E, Qabs_pos by lra. exact Hlt.
    + rewrite <- E. exact H.
Qed.


(** There is one nearest binary64 number only. *)
Lemma nearest_binary64_unique (q x x' : Q) :
  nearest_binary64 q x -> nearest_binary64 q x' -> x == x'.
Proof.
  intros [Hx H] [Hx' H'].
  destruct (H x' Hx') as [C1 T1]. destruct (H' x Hx) as [C2 T2].
  assert (E : Qabs (x' - q) == Qabs (x - q)) by (apply Qle_antisym; assumption).
  destruct (Qeq_dec x x') as [Y | N]; [exact Y | exfalso].
  destruct T1 as (m & Em & Hm); [exact E | intros C; apply N; symmetry; exact C |].
  destruct T2 as (m' & Em' & Hm'); [symmetry; exact E | exact N |].
  assert (Z0 : (1 + inject_Z m + inject_Z m') * (x' - x) == 0).
  { setoid_replace ((1 + inject_Z m + inject_Z m') * (x' - x))
      with (x' - inject_Z m' * (x - x') - (x - inject_Z m * (x' - x)))
      by ring.
    rewrite <- Hm, <- Hm'. ring. }
  apply Qmult_integral in Z0. destruct Z0 as [Z1 | Z2].
  - change 1 with (inject_Z 1) in Z1.
    rewrite <- !inject_Z_plus in Z1.
    unfold Qeq in Z1. cbn [Qnum Qden inject_Z] in Z1.
    apply Z.even_spec in Em. apply Z.even_spec in Em'.
    destruct Em as [a Ha]. destruct Em' as [b Hb]. lia.
  - apply N. lra.
Qed.

(** Rounding has one result only. *)
Lemma rounds_to_unique (q : Q) (f f' : float) :
  rounds_to q f -> rounds_to q f' -> feq f f' = true.
Proof.
  assert (P : (0 < float_limit)%Z) by reflexivity.
  rewrite Zlt_Qlt in P. change (inject_Z 0) with 0 in P.
  destruct f as [x | | |], f' as [x' | | |]; cbn [rounds_to feq];
    try contradiction; try reflexivity.
  - intros [H _] [H' _]. apply Qeq_bool_iff.
    apply (nearest_binary64_unique q); assumption.
  - intros [_ H] H'. exfalso. rewrite Qabs_pos in H by lra. lra.
  - intros [_ H] H'. exfalso. rewrite Qabs_neg in H by lra. lra.
  - intros H [_ H']. exfalso. rewrite Qabs_pos in H' by lra. lra.
  - intros H H'. exfalso. lra.
  - intros H [_ H']. exfalso. rewrite Qabs_neg in H' by lra. lra.
  - intros H H'. exfalso. lra.
Qed.

(** A binary64 number is its own nearest binary64 number. *)
Lemma nearest_binary64_self (x : Q) : binary64_number x -> nearest_binary64 x x.
Proof.
  intros Hx. split; [exact Hx |]. intros y _.
  assert (D : Qabs (x - x) == 0).
  { setoid_replace (x - x) with 0 by ring. reflexivity. }
  split; [rewrite D; apply Qabs_nonneg |].
  intros E N. exfalso. apply N. rewrite D in E.
  assert (A : Qabs (y - x) <= 0) by lra.
  apply Qabs_Qle_condition in A. lra.
Qed.

Lemma binary64_number_bound (x : Q) :
  binary64_number x -> Qabs x < inject_Z float_limit.
Proof.
  intros (m & e & Hm & He & Ex).
  assert (A : Qabs x == inject_Z (Z.abs m) * 2 ^ e).
  { rewrite Ex, Qabs_Qmult, (Qabs_pos (2 ^ e))
      by (apply Qlt_le_weak, pow2_pos). reflexivity. }
  rewrite A.
  apply Qle_lt_trans with (inject_Z (2 ^ prec - 1) * 2 ^ (emax - prec)).
  - apply Qmult_le_compat_nonneg.
    + split; [change 0 with (inject_Z 0); rewrite <- Zle_Qle; lia |].
      rewrite <- Zle_Qle. lia.
    + split; [apply Qlt_le_weak, pow2_pos | apply pow2_le; lia].
  - vm_compute. reflexivity.
Qed.

(** The rationals that rounding leaves alone are the binary64 numbers. *)
Lemma is_binary64_iff (q : Q) : is_binary64 q = true <-> binary64_number q.
Proof.
  unfold is_binary64. pose proof (binary64_spec q) as S. split.
  - destruct (binary64 q) as [x | | |]; cbn [feq]; try discriminate.
    intros E. apply Qeq_bool_iff in E. destruct S as [[Hx _] _].
    apply (binary64_number_comp x); assumption.
  - intros Hq.
    apply (rounds_to_unique q); [exact S |].
    split; [apply nearest_binary64_self, Hq | apply binary64_number_bound, Hq].
Qed.

End Nearest.

(** The literals 0.1, 1.9 and 2.1, the rounding of integers beyond 2^53, a
    tie, the smallest float, the largest one and the overflow. *)
Example binary64_examples :
  binary64 (1 # 10) = Fin (3602879701896397 # 36028797018963968)
  /\ binary64 (19 # 10) = Fin (4278419646001971 # 2251799813685248)
  /\ binary64 (21 # 10) = Fin (4728779608739021 # 2251799813685248)
  /\ binary64 (inject_Z (2 ^ 53 + 1)) = Fin (inject_Z (2 ^ 53))
  /\ binary64 (inject_Z (2 ^ 53 + 3)) = Fin (inject_Z (2 ^ 53 + 4))
  /\ binary64 (- inject_Z (2 ^ 53 + 3)) = Fin (inject_Z (- (2 ^ 53 + 4)))
  /\ binary64 (Qpower 2 (-1074)) = Fin (Qred (Qpower 2 (-1074)))
  /\ binary64 (Qpower 2 (-1075)) = Fin 0
  /\ binary64 (inject_Z (float_limit - 1)) = Fin (inject_Z (2 ^ 1024 - 2 ^ 971))
  /\ binary64 (inject_Z float_limit) = PInf
  /\ binary64 (- inject_Z float_limit) = NInf.
Proof. repeat split; vm_compute; reflexivity. Qed.

(** On the samples the sum, the difference and the quotient are those of
    the standard library's specification of IEEE 754 arithmetic. *)
Example arithmetic_agrees_with_SpecFloat :
  map (fun p => fadd (of_spec_float (fst p)) (of_spec_float (snd p)))
      ieee_samples
  = map (fun p => of_spec_float (SpecFloat.SFadd prec emax (fst p) (snd p)))
        ieee_samples
  /\ map (fun p => fsub (of_spec_float (fst p)) (of_spec_float (snd p)))
         ieee_samples
     = map (fun p => of_spec_float (SpecFloat.SFsub prec emax (fst p) (snd p)))
           ieee_samples
  /\ map (fun p => truediv (fst p) (snd p)) division_samples
     = map (fun p => finite_or_overflow
                       (of_spec_float
                          (SpecFloat.SFdiv prec emax (spec_float_of_Z (fst p))
                                           (spec_float_of_Z (snd p)))))
           division_samples.
Proof. repeat split; vm_compute; reflexivity. Qed.

(** ** Division *)

Section Arithmetic.

Local Open Scope Z_scope.

(** A true division that comes out even yields the float nearest to the
    integer quotient. *)
Lemma truediv_whole (n d g : Z) :
  d <> 0 -> n = g * d ->
  truediv n d = finite_or_overflow (binary64 (inject_Z g)).
Proof.
  intros Hd ->. unfold truediv.
  destruct (Z.eqb_spec d 0) as [E | _]; [contradiction |].
  f_equal. apply binary64_comp.
  rewrite inject_Z_mult. apply Qdiv_mult_l.
  intro H. apply Hd. unfold Qeq in H. simpl in H. lia.
Qed.

(** What rounding makes of a positive integer quotient: a whole number,
    the quotient itself up to 2^53, or an infinity from [float_limit] on. *)
Lemma binary64_of_whole (g : Z) :
  1 <= g ->
  (g < float_limit
   /\ exists g' : Z,
        binary64 (inject_Z g) = Fin (inject_Z g')
        /\ 1 <= g'
        /\ (g <= 2 ^ 53 -> g' = g)
        /\ (2 ^ 53 <= g -> 2 ^ 53 <= g'))
  \/ (float_limit <= g /\ binary64 (inject_Z g) = PInf).
Proof.
  intros Hg. destruct (Z.lt_ge_cases g float_limit) as [L | G].
  - left. split; [exact L |]. apply binary64_in_range. split; assumption.
  - right. split; [exact G |]. apply binary64_overflow, G.
Qed.

Lemma finite_or_overflow_exact (g : Z) :
  1 <= g <= 2 ^ 53 ->
  finite_or_overflow (binary64 (inject_Z g)) = Ok (Fin (inject_Z g)).
Proof.
  intros [H1 H2].
  destruct (binary64_of_whole g H1) as [(_ & g' & E & _ & Hg' & _) | [G _]].
  - rewrite E, (Hg' H2). reflexivity.
  - exfalso. assert (B : 2 ^ 53 < float_limit) by reflexivity. lia.
Qed.

Lemma gcd_pos (m r : Z) : 0 < m -> 0 < Z.gcd m r.
Proof.
  intros Hm. pose proof (Z.gcd_nonneg m r).
  assert (Z.gcd m r <> 0); [| lia].
  intro E. apply Z.gcd_eq_0_l in E. lia.
Qed.

Lemma gcd_quotient (m r : Z) :
  0 < m -> 0 < r ->
  m * r / Z.gcd m r <> 0 /\ m * r = Z.gcd m r * (m * r / Z.gcd m r).
Proof.
  intros Hm Hr. pose proof (gcd_pos m r Hm) as Hg.
  assert (Hdiv : (Z.gcd m r | m * r)).
  { apply Z.divide_mul_l. apply Z.gcd_divide_l. }
  destruct Hdiv as [k Hk]. rewrite Hk.
  rewrite Z.div_mul by lia. split; [| lia].
  intro E. subst k. nia.
Qed.

(** The [kgv] of the code is the least common multiple. *)
Lemma kgv_is_lcm (a b : Z) :
  0 < a -> 0 < b -> b * a / Z.gcd b a = Z.lcm a b.
Proof.
  intros Ha Hb. unfold Z.lcm. rewrite (Z.gcd_comm b a).
  pose proof (gcd_pos a b Ha) as Hg.
  destruct (Z.gcd_divide_r a b) as [k Hk].
  rewrite Hk at 1 3. rewrite Z.div_mul by lia.
  rewrite (Z.mul_comm (k * Z.gcd a b) a), Z.mul_assoc, Z.div_mul by lia.
  symmetry. apply Z.abs_eq. nia.
Qed.

Lemma gcd_le_min (a b : Z) : 0 < a -> 0 < b -> 1 <= Z.gcd a b <= Z.min a b.
Proof.
  intros Ha Hb. pose proof (gcd_pos a b Ha) as Hg.
  pose proof (Z.divide_pos_le _ _ Ha (Z.gcd_divide_l a b)).
  pose proof (Z.divide_pos_le _ _ Hb (Z.gcd_divide_r a b)).
  lia.
Qed.

Lemma gcd_quotient_nonzero (m r : Z) :
  m <> 0 -> r <> 0 ->
  m * r / Z.gcd m r <> 0 /\ m * r = Z.gcd m r * (m * r / Z.gcd m r).
Proof.
  intros Hm Hr.
  assert (Hg : 0 < Z.gcd m r).
  { pose proof (Z.gcd_nonneg m r). assert (Z.gcd m r <> 0); [| lia].
    intro E. apply Z.gcd_eq_0_l in E. lia. }
  assert (Hdiv : (Z.gcd m r | m * r)).
  { apply Z.divide_mul_l. apply Z.gcd_divide_l. }
  destruct Hdiv as [k Hk]. rewrite Hk.
  rewrite Z.div_mul by lia. split; [| lia].
  intro E. subst k. nia.
Qed.

End Arithmetic.

(** ** The quality factor *)

Section Quality.

Local Open Scope Z_scope.

(** The quality factor reads two columns of its row, nothing else. *)
Lemma berechne_qualitaet_classify (row : Variante) :
  berechne_qualitaet row = classify (Polzahl_Rotor row) (Modulatorzahl row).
Proof. reflexivity. Qed.

(** The classifier on two numbers, with the rounding done. *)
Lemma classify_num (x y : Q) :
  classify (num x) (num y)
  = (kgv <- floordiv (round_half_even y * round_half_even x)
                     (Z.gcd (round_half_even y) (round_half_even x)) ;;
     truediv (round_half_even y * round_half_even x) kgv).
Proof. reflexivity. Qed.

Lemma classify_rounded (x y : Q) :
  classify (num x) (num y)
  = classify (int (round_half_even x)) (int (round_half_even y)).
Proof.
  unfold int. fold (num (inject_Z (round_half_even x))).
  fold (num (inject_Z (round_half_even y))).
  rewrite !classify_num, !round_half_even_inject_Z. reflexivity.
Qed.

(** Two numbers neither of which rounds to 0: the float nearest to the
    greatest common divisor of the rounded values, whatever their signs. *)
Lemma classify_nonzero (x y : Q) :
  round_half_even x <> 0 -> round_half_even y <> 0 ->
  classify (num x) (num y)
  = finite_or_overflow
      (binary64 (inject_Z (Z.gcd (round_half_even x) (round_half_even y)))).
Proof.
  intros Hx Hy. rewrite classify_num.
  destruct (gcd_quotient_nonzero _ _ Hy Hx) as [Hk Hm].
  unfold floordiv.
  destruct (Z.eqb_spec (Z.gcd (round_half_even y) (round_half_even x)) 0)
    as [E | _].
  - apply Z.gcd_eq_0_l in E. contradiction.
  - cbn [bind]. rewrite (Z.gcd_comm (round_half_even x)).
    apply truediv_whole; [exact Hk | exact Hm].
Qed.

Lemma classify_int (a b : Z) :
  0 < a -> 0 < b ->
  classify (int a) (int b)
  = finite_or_overflow (binary64 (inject_Z (Z.gcd a b))).
Proof.
  intros Ha Hb. unfold int. fold (num (inject_Z a)). fold (num (inject_Z b)).
  rewrite classify_nonzero; rewrite !round_half_even_inject_Z;
    [reflexivity | lia | lia].
Qed.

Lemma classify_zero (x y : Q) :
  round_half_even x = 0 \/ round_half_even y = 0 ->
  classify (num x) (num y) = Raise ZeroDivisionError.
Proof.
  intros H. rewrite classify_num.
  assert (E : round_half_even y * round_half_even x = 0) by nia.
  rewrite E. unfold floordiv.
  destruct (Z.eqb_spec (Z.gcd (round_half_even y) (round_half_even x)) 0)
    as [_ | Hg]; [reflexivity |].
  cbn [bind]. rewrite Z.div_0_l by exact Hg. reflexivity.
Qed.

(** A pole count that is blank, infinite or a text makes the quality factor
    raise; the modulator count is converted first. *)
Example classify_not_a_number :
  classify blank (int 5) = Raise ValueError
  /\ classify (int 5) (VStr "n/a") = Raise TypeError
  /\ classify blank (VStr "n/a") = Raise TypeError
  /\ classify (VFloat PInf) (int 5) = Raise OverflowError.
Proof. repeat split; reflexivity. Qed.

Example classify_examples :
  classify (int 3) (int 5) = Ok (Fin 1)
  /\ classify (int 4) (int 8) = Ok (Fin 4)
  /\ classify (int 6) (int 6) = Ok (Fin 6)
  /\ classify (int (-4)) (int 6) = Ok (Fin 2).
Proof. repeat split; vm_compute; reflexivity. Qed.

(** Beyond 2^53 the quotient is rounded, and beyond the range of the floats
    the division raises. *)
Example classify_large :
  classify (int (2 ^ 53 + 1)) (int (2 ^ 53 + 1)) = Ok (Fin (inject_Z (2 ^ 53)))
  /\ classify (int (2 ^ 53 + 3)) (int (2 ^ 53 + 3))
     = Ok (Fin (inject_Z (2 ^ 53 + 4)))
  /\ classify (int (2 ^ 1024)) (int (2 ^ 1024)) = Raise OverflowError
  /\ classify (int (2 ^ 1024)) (int 6) = Ok (Fin 2).
Proof. repeat split; vm_compute; reflexivity. Qed.

End Quality.

(** ** Claims about the quality factor *)

Section QualityClaims.

Local Open Scope Z_scope.

(** C1, as stated, fails: the quotient is a float, and for the pole counts
    2^53 + 1 and 2^54 + 2 it is 2^53, not their greatest common divisor
    2^53 + 1. *)
Lemma quality_of_large_counts_is_rounded :
  Z.gcd (2 ^ 53 + 1) (2 ^ 54 + 2) = 2 ^ 53 + 1
  /\ classify (int (2 ^ 53 + 1)) (int (2 ^ 54 + 2))
     = Ok (Fin (inject_Z (2 ^ 53)))
  /\ classify (int (2 ^ 53 + 1)) (int (2 ^ 54 + 2))
     <> Ok (Fin (inject_Z (Z.gcd (2 ^ 53 + 1) (2 ^ 54 + 2)))).
Proof.
  split; [reflexivity |].
  assert (E : classify (int (2 ^ 53 + 1)) (int (2 ^ 54 + 2))
              = Ok (Fin (inject_Z (2 ^ 53)))) by (vm_compute; reflexivity).
  split; [exact E |]. rewrite E. vm_compute. discriminate.
Qed.

(** C1, amended.  For every pair of positive integers [rotorPoles] and
    [modulatorCount] the quality factor is
    [(rotorPoles * modulatorCount) / lcm(rotorPoles, modulatorCount)]
    computed as a float: what rounding to nearest, ties to even, makes of
    [gcd(rotorPoles, modulatorCount)], with an [OverflowError] in the place
    of an infinity; that is the greatest common divisor itself whenever it
    is at most 2^53. *)
Theorem quality_is_product_over_lcm (rotorPoles modulatorCount : Z) :
  0 < rotorPoles -> 0 < modulatorCount ->
  classify (int rotorPoles) (int modulatorCount)
  = truediv (rotorPoles * modulatorCount) (Z.lcm rotorPoles modulatorCount)
  /\ (exists f,
        rounds_to (inject_Z (Z.gcd rotorPoles modulatorCount)) f
        /\ classify (int rotorPoles) (int modulatorCount)
           = finite_or_overflow f)
  /\ (Z.gcd rotorPoles modulatorCount <= 2 ^ 53 ->
      classify (int rotorPoles) (int modulatorCount)
      = Ok (Fin (inject_Z (Z.gcd rotorPoles modulatorCount)))).
Proof.
  intros Hr Hm. split; [| split].
  - unfold int. fold (num (inject_Z rotorPoles)).
    fold (num (inject_Z modulatorCount)).
    rewrite classify_num, !round_half_even_inject_Z. unfold floordiv.
    pose proof (gcd_pos modulatorCount rotorPoles Hm) as Hg.
    destruct (Z.eqb_spec (Z.gcd modulatorCount rotorPoles) 0) as [E | _];
      [lia |].
    cbn [bind]. rewrite kgv_is_lcm by assumption.
    rewrite (Z.mul_comm modulatorCount rotorPoles). reflexivity.
  - eexists. split; [apply binary64_spec | apply classify_int; assumption].
  - intros Hle. rewrite classify_int by assumption.
    apply finite_or_overflow_exact.
    pose proof (gcd_pos rotorPoles modulatorCount Hr). lia.
Qed.

Lemma quality_is_product_over_lcm_4_6 :
  0 < 4 /\ 0 < 6
  /\ classify (int 4) (int 6) = truediv (4 * 6) (Z.lcm 4 6)
  /\ (exists f,
        rounds_to (inject_Z 2) f
        /\ classify (int 4) (int 6) = finite_or_overflow f)
  /\ (2 <= 2 ^ 53 -> classify (int 4) (int 6) = Ok (Fin 2)).
Proof.
  split; [lia |]. split; [lia |].
  apply (quality_is_product_over_lcm 4 6); lia.
Defined.

(** C5.  When [rotorPoles] or [modulatorCount] is 0 the quality factor
    fails: the division by zero is raised and no number is returned. *)
Theorem zero_pole_count_fails (rotorPoles modulatorCount : Z) :
  rotorPoles = 0 \/ modulatorCount = 0 ->
  classify (int rotorPoles) (int modulatorCount) = Raise ZeroDivisionError
  /\ forall quality, classify (int rotorPoles) (int modulatorCount) <> Ok quality.
Proof.
  intros H.
  assert (E : classify (int rotorPoles) (int modulatorCount)
              = Raise ZeroDivisionError).
  { apply classify_zero. rewrite !round_half_even_inject_Z. exact H. }
  split; [exact E |]. intros quality. rewrite E. discriminate.
Qed.

Lemma zero_pole_count_fails_0_5 :
  (0 = 0 \/ 5 = 0)
  /\ classify (int 0) (int 5) = Raise ZeroDivisionError
  /\ forall quality, classify (int 0) (int 5) <> Ok quality.
Proof.
  split; [left; reflexivity |].
  apply (zero_pole_count_fails 0 5). left. reflexivity.
Defined.

(** C8, as stated, fails: for the pole counts 2^53 + 3 and 2^53 + 3 the
    quality factor is 2^53 + 4, above the smaller of the two. *)
Lemma quality_above_the_smaller_count :
  classify (int (2 ^ 53 + 3)) (int (2 ^ 53 + 3))
  = Ok (Fin (inject_Z (2 ^ 53 + 4)))
  /\ Z.min (2 ^ 53 + 3) (2 ^ 53 + 3) < 2 ^ 53 + 4.
Proof. split; [vm_compute; reflexivity | reflexivity]. Qed.

(** C8, amended.  For every pair of positive integers whose greatest
    common divisor is not too large for a float, the quality factor is a
    whole number from 1 upwards, never a value between two integers: the
    float nearest to the greatest common divisor.  It is at most the
    smaller of the two arguments whenever the greatest common divisor is at
    most 2^53.  Beyond the floats there is no value, the division
    overflows. *)
Theorem quality_integer_in_range (rotorPoles modulatorCount : Z) :
  0 < rotorPoles -> 0 < modulatorCount ->
  (Z.gcd rotorPoles modulatorCount < float_limit ->
   exists g : Z,
     classify (int rotorPoles) (int modulatorCount) = Ok (Fin (inject_Z g))
     /\ 1 <= g
     /\ nearest_binary64 (inject_Z (Z.gcd rotorPoles modulatorCount))
                         (inject_Z g)
     /\ (Z.gcd rotorPoles modulatorCount <= 2 ^ 53 ->
         g <= Z.min rotorPoles modulatorCount))
  /\ (float_limit <= Z.gcd rotorPoles modulatorCount ->
      classify (int rotorPoles) (int modulatorCount) = Raise OverflowError).
Proof.
  intros Hr Hm. rewrite classify_int by assumption.
  pose proof (gcd_le_min rotorPoles modulatorCount Hr Hm) as [H1 H2].
  pose proof (binary64_spec (inject_Z (Z.gcd rotorPoles modulatorCount)))
    as Hspec.
  destruct (binary64_of_whole _ H1)
    as [(L & g & E & Hg & Hsmall & _) | [G E]]; rewrite E in *.
  - split; [| lia]. intros _. exists g. split; [reflexivity |].
    split; [exact Hg |]. split; [apply Hspec |].
    intros Hle. rewrite (Hsmall Hle). exact H2.
  - split; [lia |]. intros _. reflexivity.
Qed.

Lemma quality_integer_in_range_4_6 :
  0 < 4 /\ 0 < 6 /\ Z.gcd 4 6 < float_limit
  /\ exists g : Z,
       classify (int 4) (int 6) = Ok (Fin (inject_Z g))
       /\ 1 <= g
       /\ nearest_binary64 (inject_Z (Z.gcd 4 6)) (inject_Z g)
       /\ (Z.gcd 4 6 <= 2 ^ 53 -> g <= Z.min 4 6).
Proof.
  split; [lia |]. split; [lia |]. split; [reflexivity |].
  apply (quality_integer_in_range 4 6); [lia | lia | reflexivity].
Defined.

(** C9, as stated, fails: the quality factor of 2^53 + 1 with itself is
    2^53. *)
Lemma quality_of_equal_large_counts :
  classify (int (2 ^ 53 + 1)) (int (2 ^ 53 + 1)) = Ok (Fin (inject_Z (2 ^ 53)))
  /\ classify (int (2 ^ 53 + 1)) (int (2 ^ 53 + 1))
     <> Ok (Fin (inject_Z (2 ^ 53 + 1))).
Proof.
  assert (E : classify (int (2 ^ 53 + 1)) (int (2 ^ 53 + 1))
              = Ok (Fin (inject_Z (2 ^ 53)))) by (vm_compute; reflexivity).
  split; [exact E |]. rewrite E. vm_compute. discriminate.
Qed.

(** C9, amended.  On positive integers the quality factor is symmetric in
    its two arguments; on equal arguments it is what rounding to nearest
    makes of the argument, which is the argument itself up to 2^53. *)
Theorem quality_symmetric_and_diagonal (a b : Z) :
  0 < a -> 0 < b ->
  classify (int a) (int b) = classify (int b) (int a)
  /\ (exists f,
        rounds_to (inject_Z a) f
        /\ classify (int a) (int a) = finite_or_overflow f)
  /\ (a <= 2 ^ 53 -> classify (int a) (int a) = Ok (Fin (inject_Z a))).
Proof.
  intros Ha Hb.
  assert (D : classify (int a) (int a)
              = finite_or_overflow (binary64 (inject_Z a))).
  { rewrite classify_int by assumption.
    rewrite Z.gcd_diag, Z.abs_eq by lia. reflexivity. }
  split; [| split].
  - rewrite !classify_int by assumption. rewrite Z.gcd_comm. reflexivity.
  - eexists. split; [apply binary64_spec | exact D].
  - intros Hle. rewrite D. apply finite_or_overflow_exact. lia.
Qed.

Lemma quality_symmetric_and_diagonal_6_4 :
  0 < 6 /\ 0 < 4
  /\ classify (int 6) (int 4) = classify (int 4) (int 6)
  /\ (exists f,
        rounds_to (inject_Z 6) f
        /\ classify (int 6) (int 6) = finite_or_overflow f)
  /\ (6 <= 2 ^ 53 -> classify (int 6) (int 6) = Ok (Fin 6)).
Proof.
  split; [lia |]. split; [lia |].
  apply (quality_symmetric_and_diagonal 6 4); lia.
Defined.

(** C10.  The quality factor rounds each of its two inputs to the nearest
    integer before computing: [round_half_even x] is the integer nearest to
    [x] (the even one of the two when [x] lies halfway), and on numbers [x]
    and [y] whose nearest integers are positive the quality factor is that
    of the rounded integers, whatever row holds [x] and [y] unrounded: their
    greatest common divisor, as long as a float holds it exactly. *)
Theorem quality_rounds_its_inputs (x y : Q) :
  0 < round_half_even x -> 0 < round_half_even y ->
  nearest_integer x (round_half_even x)
  /\ nearest_integer y (round_half_even y)
  /\ classify (num x) (num y)
     = classify (int (round_half_even x)) (int (round_half_even y))
  /\ (forall row,
        Polzahl_Rotor row = num x -> Modulatorzahl row = num y ->
        berechne_qualitaet row
        = classify (int (round_half_even x)) (int (round_half_even y)))
  /\ (Z.gcd (round_half_even x) (round_half_even y) <= 2 ^ 53 ->
      classify (num x) (num y)
      = Ok (Fin (inject_Z (Z.gcd (round_half_even x) (round_half_even y))))).
Proof.
  intros Hx Hy.
  split; [apply round_half_even_nearest |].
  split; [apply round_half_even_nearest |].
  split; [apply classify_rounded |]. split.
  - intros row Er Em. rewrite berechne_qualitaet_classify, Er, Em.
    apply classify_rounded.
  - intros Hle. rewrite classify_rounded, classify_int by assumption.
    apply finite_or_overflow_exact.
    pose proof (gcd_pos (round_half_even x) (round_half_even y) Hx). lia.
Qed.

Lemma quality_rounds_its_inputs_fractional :
  0 < round_half_even (41 # 2) /\ 0 < round_half_even (15 # 2)
  /\ nearest_integer (41 # 2) 20
  /\ nearest_integer (15 # 2) 8
  /\ classify (num (41 # 2)) (num (15 # 2)) = classify (int 20) (int 8)
  /\ (forall row,
        Polzahl_Rotor row = num (41 # 2) -> Modulatorzahl row = num (15 # 2) ->
        berechne_qualitaet row = classify (int 20) (int 8))
  /\ (Z.gcd 20 8 <= 2 ^ 53 ->
      classify (num (41 # 2)) (num (15 # 2)) = Ok (Fin 4)).
Proof.
  split; [reflexivity |]. split; [reflexivity |].
  apply (quality_rounds_its_inputs (41 # 2) (15 # 2)); reflexivity.
Defined.

End QualityClaims.

(** ** Extraction *)

(** Consecutive groups of equal length, laid end to end. *)
Lemma flat_map_seq_length {A : Type} (F : nat -> list A) (nb : nat) :
  (forall c, length (F c) = nb) ->
  forall n start, length (flat_map F (seq start n)) = n * nb.
Proof.
  intros HF n. induction n as [| n IH]; intros start; [reflexivity |].
  cbn [seq flat_map]. rewrite length_app, HF, IH. reflexivity.
Qed.

Lemma flat_map_seq_nth {A : Type} (F : nat -> list A) (nb : nat) :
  (forall c, length (F c) = nb) ->
  forall n start c k,
    c < n -> k < nb ->
    nth_error (flat_map F (seq start n)) (c * nb + k)
    = nth_error (F (start + c)) k.
Proof.
  intros HF n. induction n as [| n IH]; intros start c k Hc Hk; [lia |].
  cbn [seq flat_map]. destruct c as [| c].
  - rewrite nth_error_app1 by (rewrite HF; lia).
    rewrite Nat.add_0_r. reflexivity.
  - rewrite nth_error_app2 by (rewrite HF; lia). rewrite HF.
    replace (S c * nb + k - nb) with (c * nb + k) by lia.
    rewrite IH by lia. do 2 f_equal. lia.
Qed.

Section ExtractionLoop.

Variable df : DataFrame.
Hypothesis Hrect : rectangular df = true.

Lemma rectangular_row (row : list value) :
  In row df -> length row = ncols df.
Proof.
  intros Hin. unfold rectangular in Hrect.
  rewrite forallb_forall in Hrect. apply Nat.eqb_eq. apply Hrect, Hin.
Qed.

(** Inside the frame [iloc] succeeds and reads the cell. *)
Lemma iloc_cell (r c : nat) :
  r < len df -> c < ncols df -> iloc df r c = Ok (cell df r c).
Proof.
  intros Hr Hc. unfold iloc, cell, len in *.
  destruct (nth_error df r) as [row |] eqn:Erow.
  - pose proof (rectangular_row row (nth_error_In _ _ Erow)) as Hlen.
    rewrite (nth_error_nth _ _ [] Erow).
    destruct (nth_error row c) as [v |] eqn:Ev.
    + rewrite (nth_error_nth _ _ blank Ev). reflexivity.
    + apply nth_error_None in Ev. lia.
  - apply nth_error_None in Erow. lia.
Qed.

Lemma read_block_cell (c k s : nat) :
  c < ncols df -> s = 1 + 5 * k -> s + 4 < len df ->
  read_block df c (cell df 0 c) s = Ok (block_record df c k).
Proof.
  intros Hc -> Hk. unfold read_block.
  rewrite !iloc_cell by (assumption || lia). reflexivity.
Qed.

(** Block [k] is complete exactly when the loop condition holds at its
    first row. *)
Lemma complete_blocks_bounds (k : nat) :
  k < complete_blocks df <-> 1 + 5 * k + 4 < len df.
Proof.
  unfold complete_blocks.
  pose proof (Nat.div_mod_eq (len df - 1) 5) as E.
  pose proof (Nat.mod_upper_bound (len df - 1) 5 ltac:(lia)) as B.
  split; intro H; nia.
Qed.

(** The [while] loop, started at block [j], appends the records of the
    remaining complete blocks and stops. *)
Lemma while_blocks_spec (c : nat) :
  c < ncols df ->
  forall n j s results,
    s = 1 + 5 * j ->
    j + n = complete_blocks df ->
    while_blocks df c (cell df 0 c) s results
    = Ok (results ++ map (block_record df c) (seq j n)).
Proof.
  intros Hc n. induction n as [| n IH]; intros j s results Hs Hj;
    pose proof (complete_blocks_bounds j) as Hb;
    simp while_blocks;
    destruct (lt_dec (s + 4) (len df)) as [Hlt | Hge]; cbn [map seq];
    try (exfalso; lia).
  - cbn. rewrite app_nil_r. reflexivity.
  - cbn [while_blocks_unfold_clause_1].
    rewrite (read_block_cell c j s) by assumption.
    cbn [while_blocks_unfold_clause_1_clause_1].
    rewrite (IH (S j)) by lia. rewrite <- app_assoc. reflexivity.
Qed.

Lemma for_columns_spec (cols : list nat) :
  forall results,
    Forall (fun c => c < ncols df) cols ->
    for_columns df cols results
    = Ok (results ++
          flat_map (fun c => map (block_record df c)
                                 (seq 0 (complete_blocks df))) cols).
Proof.
  induction cols as [| c cols IH]; intros results Hcols.
  - simpl. rewrite app_nil_r. reflexivity.
  - inversion Hcols as [| ? ? Hc Hrest]; subst.
    assert (Hlen : 0 < len df).
    { unfold ncols, len in *.
      destruct (Nat.eq_dec (length df) 0) as [E | E]; [| lia].
      apply length_zero_iff_nil in E. rewrite E in Hc. simpl in Hc. lia. }
    cbn [for_columns flat_map].
    rewrite iloc_cell by assumption. cbn [bind].
    rewrite (while_blocks_spec c Hc (complete_blocks df) 0 1) by reflexivity.
    cbn [bind]. rewrite IH by assumption.
    rewrite <- app_assoc. reflexivity.
Qed.

Lemma columns_in_range : Forall (fun c => c < ncols df) (columns df).
Proof.
  apply Forall_forall. intros c Hin. unfold columns in Hin.
  apply in_seq in Hin. lia.
Qed.

(** The loop over the columns builds the records of the layout. *)
Lemma results_loop_spec : results_loop df = Ok (extract_spec df).
Proof.
  unfold results_loop.
  rewrite for_columns_spec by apply columns_in_range. reflexivity.
Qed.

(** With a row 0 to read, so does the whole extraction. *)
Lemma extraction_spec : df <> [] -> extraction df = Ok (extract_spec df).
Proof.
  intros Hne. unfold extraction, iloc_row.
  destruct (nth_error df 0) as [row |] eqn:E.
  - cbn [bind]. apply results_loop_spec.
  - apply nth_error_None in E. exfalso. apply Hne.
    apply length_zero_iff_nil. lia.
Qed.

(** The records of the layout, by position and by membership. *)
Lemma extract_spec_length :
  length (extract_spec df) = ncols df * complete_blocks df.
Proof.
  unfold extract_spec, columns. apply flat_map_seq_length.
  intros c. rewrite length_map, length_seq. reflexivity.
Qed.

Lemma extract_spec_nth (c k : nat) :
  c < ncols df -> k < complete_blocks df ->
  nth_error (extract_spec df) (c * complete_blocks df + k)
  = Some (block_record df c k).
Proof.
  intros Hc Hk. unfold extract_spec, columns.
  rewrite (flat_map_seq_nth _ (complete_blocks df)); try assumption.
  - cbn [Nat.add]. rewrite nth_error_map, nth_error_seq.
    destruct (Nat.ltb_spec k (complete_blocks df)); [reflexivity | lia].
  - intros c'. rewrite length_map, length_seq. reflexivity.
Qed.

Lemma extract_spec_In (r : Variante) :
  In r (extract_spec df) ->
  exists c k, c < ncols df /\ k < complete_blocks df /\ r = block_record df c k.
Proof.
  unfold extract_spec, columns. intros Hin.
  apply in_flat_map in Hin. destruct Hin as (c & Hc & Hin).
  apply in_map_iff in Hin. destruct Hin as (k & <- & Hk).
  apply in_seq in Hc. apply in_seq in Hk.
  exists c, k. repeat split; lia.
Qed.

End ExtractionLoop.

Example extraction_no_rows : extraction [] = Raise IndexError.
Proof. reflexivity. Qed.

Example results_loop_no_rows : results_loop [] = Ok [].
Proof. reflexivity. Qed.

(** The quality factor of the record extracted from [grid_fractional]:
    20.5 and 7.5 are scored as 20 and 8. *)
Example quality_of_fractional_record :
  (rs <- extraction grid_fractional ;; mapM berechne_qualitaet rs)
  = Ok [Fin 4].
Proof. reflexivity. Qed.

Example extraction_seventh_row_discarded :
  extraction grid7 = Ok [variant6] /\ extraction grid7 = extraction grid6.
Proof. split; reflexivity. Qed.

(** ** Claims about extraction *)

(** C2.  For every rectangular grid the extraction loop reads row 0 of each
    column as the stator pole count and cuts the column, from row 1 on, into
    consecutive 5-row blocks (rotor poles, modulator count, gear ratio,
    modulator torque, rotor torque): [results] holds one record per
    complete block, column after column, and nothing for a trailing partial
    block.  The extraction section as a whole, which first reads row 0 into
    [p_stator], returns the same list whenever the grid has a row 0. *)
Theorem extraction_partitions_columns (df : DataFrame) :
  rectangular df = true ->
  results_loop df = Ok (extract_spec df)
  /\ length (extract_spec df) = ncols df * complete_blocks df
  /\ (df <> [] -> extraction df = Ok (extract_spec df)).
Proof.
  intros Hrect. split; [apply results_loop_spec; assumption |].
  split; [apply extract_spec_length |].
  apply extraction_spec; assumption.
Qed.

Lemma extraction_partitions_columns_grid7 :
  rectangular grid7 = true
  /\ grid7 <> []
  /\ results_loop grid7 = Ok [variant6]
  /\ extraction grid7 = Ok [variant6].
Proof.
  split; [reflexivity |]. split; [discriminate |].
  destruct (extraction_partitions_columns grid7) as (Hloop & _ & Hall);
    [reflexivity |].
  split; [exact Hloop | apply Hall; discriminate].
Defined.

(** C3, as stated, fails: the two malformed blocks of [grid_malformed] (a
    blank gear ratio, a text as rotor torque) each yield a record. *)
Lemma malformed_blocks_are_kept :
  (rs <- extraction grid_malformed ;; Ok (map well_formed rs))
  = Ok [true; false; false; true].
Proof. reflexivity. Qed.

(** C3, amended.  The extractor does not look at what a cell holds: on every
    rectangular grid the loop runs to the end and [results] holds one record
    for every complete block of every column, the blocks with a blank or a
    text among them, each record built from the cells of its own block and
    column only. *)
Theorem extraction_keeps_every_block (df : DataFrame) :
  rectangular df = true ->
  exists rs,
    results_loop df = Ok rs
    /\ (df <> [] -> extraction df = Ok rs)
    /\ length rs = ncols df * complete_blocks df
    /\ forall c k,
         c < ncols df -> k < complete_blocks df ->
         nth_error rs (c * complete_blocks df + k) = Some (block_record df c k).
Proof.
  intros Hrect. exists (extract_spec df).
  split; [apply results_loop_spec; assumption |].
  split; [apply extraction_spec; assumption |].
  split; [apply extract_spec_length |].
  intros c k. apply extract_spec_nth.
Qed.

Lemma extraction_keeps_every_block_malformed :
  rectangular grid_malformed = true
  /\ exists rs,
       results_loop grid_malformed = Ok rs
       /\ (grid_malformed <> [] -> extraction grid_malformed = Ok rs)
       /\ length rs = 2 * 2
       /\ forall c k,
            c < 2 -> k < 2 ->
            nth_error rs (c * 2 + k) = Some (block_record grid_malformed c k).
Proof.
  split; [reflexivity |].
  apply (extraction_keeps_every_block grid_malformed). reflexivity.
Defined.

(** C4, as stated, fails: the pole counts 20.5 and 7.5 of
    [grid_fractional] are stored as they are, although they round to 20
    and 8. *)
Lemma pole_counts_are_stored_unrounded :
  extraction grid_fractional
  = Ok [ {| Spalte := 0;
            Polzahl_Stator := int 10;
            Polzahl_Rotor := num (41 # 2);
            Modulatorzahl := num (15 # 2);
            Uebersetzung := num (3 # 2);
            Drehmoment_Modulator := int 3;
            Drehmoment_Rotor := int 2 |} ]
  /\ int_round (num (41 # 2)) = Ok 20%Z
  /\ int_round (num (15 # 2)) = Ok 8%Z.
Proof. repeat split; reflexivity. Qed.

(** C4, amended.  On every rectangular grid, every extracted record stores
    the rotor pole count and the modulator count exactly as the cells hold
    them, unrounded, like the gear ratio and the two torques; the rounding
    happens in the quality factor alone. *)
Theorem extraction_stores_raw_cells (df : DataFrame) :
  rectangular df = true ->
  exists rs,
    results_loop df = Ok rs
    /\ (df <> [] -> extraction df = Ok rs)
    /\ forall r,
         In r rs ->
         exists c k,
           c < ncols df /\ k < complete_blocks df
           /\ Polzahl_Rotor r = cell df (1 + 5 * k) c
           /\ Modulatorzahl r = cell df (1 + 5 * k + 1) c
           /\ Uebersetzung r = cell df (1 + 5 * k + 2) c
           /\ Drehmoment_Modulator r = cell df (1 + 5 * k + 3) c
           /\ Drehmoment_Rotor r = cell df (1 + 5 * k + 4) c.
Proof.
  intros Hrect. exists (extract_spec df).
  split; [apply results_loop_spec; assumption |].
  split; [apply extraction_spec; assumption |].
  intros r Hin. apply extract_spec_In in Hin.
  destruct Hin as (c & k & Hc & Hk & ->).
  exists c, k. repeat split; assumption.
Qed.

Lemma extraction_stores_raw_cells_fractional :
  rectangular grid_fractional = true
  /\ exists rs,
       results_loop grid_fractional = Ok rs
       /\ (grid_fractional <> [] -> extraction grid_fractional = Ok rs)
       /\ forall r,
            In r rs ->
            exists c k,
              c < 1 /\ k < 1
              /\ Polzahl_Rotor r = cell grid_fractional (1 + 5 * k) c
              /\ Modulatorzahl r = cell grid_fractional (1 + 5 * k + 1) c
              /\ Uebersetzung r = cell grid_fractional (1 + 5 * k + 2) c
              /\ Drehmoment_Modulator r = cell grid_fractional (1 + 5 * k + 3) c
              /\ Drehmoment_Rotor r = cell grid_fractional (1 + 5 * k + 4) c.
Proof.
  split; [reflexivity |].
  apply (extraction_stores_raw_cells grid_fractional). reflexivity.
Defined.

(** ** The range filters *)

Section Masks.

Lemma fge_fle (a b : float) : fge a b = fle b a.
Proof. reflexivity. Qed.

Lemma float_fields_field (f : Field) (r : Variante) :
  float_fields r = true -> exists x, field_value f r = VFloat x.
Proof.
  unfold float_fields, is_float. intros H.
  apply andb_prop in H. destruct H as [H H3].
  apply andb_prop in H. destruct H as [H1 H2].
  destruct f; cbn [field_value];
    [destruct (Uebersetzung r) | destruct (Drehmoment_Modulator r)
     | destruct (Drehmoment_Rotor r)];
    try discriminate; eexists; reflexivity.
Qed.

Lemma float_fields_column (f : Field) (rows : list Variante) :
  forallb float_fields rows = true -> float_column (field_value f) rows.
Proof.
  intros H. unfold float_column. apply Forall_forall. intros r Hin.
  rewrite forallb_forall in H. apply float_fields_field. apply H, Hin.
Qed.

(** On a float column a comparison with a scalar never raises. *)
Lemma series_ge_floats (col : Variante -> value) (rows : list Variante)
    (x : float) :
  float_column col rows ->
  series_ge (map col rows) x
  = Ok (map (fun r => fle x (as_float (col r))) rows).
Proof.
  unfold series_ge. induction 1 as [| r rows [v Hv] _ IH]; [reflexivity |].
  cbn [map mapM]. rewrite IH, Hv. cbn. rewrite fge_fle. reflexivity.
Qed.

Lemma series_le_floats (col : Variante -> value) (rows : list Variante)
    (x : float) :
  float_column col rows ->
  series_le (map col rows) x
  = Ok (map (fun r => fle (as_float (col r)) x) rows).
Proof.
  unfold series_le. induction 1 as [| r rows [v Hv] _ IH]; [reflexivity |].
  cbn [map mapM]. rewrite IH, Hv. reflexivity.
Qed.

Lemma mask_and_map {A : Type} (p q : A -> bool) (l : list A) :
  mask_and (map p l) (map q l) = map (fun a => p a && q a) l.
Proof.
  unfold mask_and. induction l as [| a l IH]; [reflexivity |].
  cbn. f_equal. exact IH.
Qed.

(** Indexing a frame with a mask computed from its own rows is [filter]. *)
Lemma select_rows_map (p : Variante -> bool) (rows : list Variante) :
  select_rows rows (map p rows) = Ok (filter p rows).
Proof.
  induction rows as [| r rows IH]; [reflexivity |].
  cbn. rewrite IH. cbn. destruct (p r); reflexivity.
Qed.

Lemma getitem_mask_map (p : Variante -> bool) (rows : list Variante) :
  getitem_mask (Rows rows) (map p rows) = Ok (Rows (filter p rows)).
Proof. cbn [getitem_mask]. rewrite select_rows_map. reflexivity. Qed.

Lemma in_range_floats (r : Variante) (f : Field) (target tolerance : float) :
  float_fields r = true ->
  in_range r (f, target, tolerance)
  = fle (fsub target tolerance) (as_float (field_value f r))
    && fle (as_float (field_value f r)) (fadd target tolerance).
Proof.
  intros Hr. unfold in_range.
  destruct (float_fields_field f r Hr) as [x ->]. reflexivity.
Qed.

(** The two masks of one triple and their conjunction. *)
Lemma range_mask (f : Field) (target tolerance : float)
    (rows : list Variante) :
  forallb float_fields rows = true ->
  exists m1 m2,
    column_ge (Rows rows) (field_value f) (fsub target tolerance) = Ok m1
    /\ column_le (Rows rows) (field_value f) (fadd target tolerance) = Ok m2
    /\ mask_and m1 m2 = map (fun r => in_range r (f, target, tolerance)) rows.
Proof.
  intros H. pose proof (float_fields_column f rows H) as Hf.
  unfold column_ge, column_le. cbn [getitem_column bind].
  do 2 eexists. split; [apply series_ge_floats, Hf |].
  split; [apply series_le_floats, Hf |].
  rewrite mask_and_map. apply map_ext_in. intros r Hin.
  rewrite forallb_forall in H. rewrite in_range_floats by auto. reflexivity.
Qed.

Lemma getitem_one (t : Triple) (rows : list Variante) :
  getitem_mask (Rows rows) (map (fun r => in_range r t) rows)
  = Ok (Rows (filterByRange rows [t])).
Proof.
  rewrite getitem_mask_map. unfold filterByRange. do 2 f_equal.
  apply filter_ext. intros r. cbn. rewrite andb_true_r. reflexivity.
Qed.

Lemma mask_and_assoc (m : list bool) :
  forall m3 m4, mask_and (mask_and m m3) m4 = mask_and m (mask_and m3 m4).
Proof.
  unfold mask_and. induction m as [| b m IH]; intros m3 m4; [reflexivity |].
  destruct m3 as [| b3 m3]; [reflexivity |].
  destruct m4 as [| b4 m4]; [reflexivity |].
  cbn. rewrite IH, andb_assoc. reflexivity.
Qed.

Lemma getitem_two (t1 t2 : Triple) (m1 m2 m3 m4 : list bool)
    (rows : list Variante) :
  mask_and m1 m2 = map (fun r => in_range r t1) rows ->
  mask_and m3 m4 = map (fun r => in_range r t2) rows ->
  getitem_mask (Rows rows) (mask_and (mask_and (mask_and m1 m2) m3) m4)
  = Ok (Rows (filterByRange rows [t1; t2])).
Proof.
  intros E12 E34.
  rewrite mask_and_assoc, E12, E34, mask_and_map, getitem_mask_map.
  unfold filterByRange. do 2 f_equal.
  apply filter_ext. intros r. cbn. rewrite andb_true_r. reflexivity.
Qed.

End Masks.

(** Evaluate the two comparisons of the triple [(f, target, tolerance)] in
    the goal, leaving the conjunction of their masks as [E]. *)
Ltac range_mask_of f target tolerance H E :=
  let m1 := fresh "m" in
  let m2 := fresh "m" in
  let E1 := fresh "Ege" in
  let E2 := fresh "Ele" in
  destruct (range_mask f target tolerance _ H) as (m1 & m2 & E1 & E2 & E);
  cbn [field_value] in E1, E2;
  rewrite E1; cbn [bind]; rewrite E2; cbn [bind].

(** Every tab computes the range filter of its triples and assigns it to
    its variable; [df_all] keeps its value. *)
Lemma run_spec (i : Invocation) (g : Globals) (records : list Variante) :
  df_all g = Rows records ->
  forallb float_fields records = true ->
  exists g',
    run i g = Ok g'
    /\ filtered i g' = Some (Rows (filterByRange records (triples_of i)))
    /\ df_all g' = df_all g.
Proof.
  intros Hdf H.
  destruct i; cbn [run triples_of filtered];
    unfold tab_uebersetzung, tab_rotor, tab_mod,
           tab_combo1, tab_combo2, tab_combo3;
    rewrite Hdf.
  - range_mask_of gearRatio selected_ratio tolerance H E.
    rewrite E, getitem_one. cbn [bind]. eexists. repeat split. exact Hdf.
  - range_mask_of rotorTorque target tolerance H E.
    rewrite E, getitem_one. cbn [bind]. eexists. repeat split. exact Hdf.
  - range_mask_of modulatorTorque target tolerance H E.
    rewrite E, getitem_one. cbn [bind]. eexists. repeat split. exact Hdf.
  - range_mask_of gearRatio ratio tolerance_i H Ea.
    range_mask_of rotorTorque target tolerance_T H Eb.
    rewrite (getitem_two _ _ _ _ _ _ _ Ea Eb). cbn [bind].
    eexists. repeat split. exact Hdf.
  - range_mask_of gearRatio ratio tolerance_i H Ea.
    range_mask_of modulatorTorque target tolerance H Eb.
    rewrite (getitem_two _ _ _ _ _ _ _ Ea Eb). cbn [bind].
    eexists. repeat split. exact Hdf.
  - range_mask_of modulatorTorque target_MOD tolerance_MOD H Ea.
    range_mask_of rotorTorque target_Rotor tolerance_Rotor H Eb.
    rewrite (getitem_two _ _ _ _ _ _ _ Ea Eb). cbn [bind].
    eexists. repeat split. exact Hdf.
Qed.

Section RangeFilter.

Lemma filter_subsequence {A : Type} (p : A -> bool) (l : list A) :
  subsequence (filter p l) l.
Proof.
  induction l as [| a l IH]; cbn; [constructor |].
  destruct (p a); constructor; exact IH.
Qed.

Lemma filterByRange_In (rows : list Variante) (triples : list Triple)
    (r : Variante) :
  In r (filterByRange rows triples)
  <-> In r rows /\ forall t, In t triples -> in_range r t = true.
Proof.
  unfold filterByRange. rewrite filter_In, forallb_forall. reflexivity.
Qed.

(** The order in which two triples are given does not matter. *)
Lemma filterByRange_swap (rows : list Variante) (t1 t2 : Triple) :
  filterByRange rows [t1; t2] = filterByRange rows [t2; t1].
Proof.
  unfold filterByRange. apply filter_ext. intros r. cbn.
  rewrite !andb_true_r. apply andb_comm.
Qed.

Lemma invocation_of_triples (rows : list Variante) (triples : list Triple)
    (i : Invocation) :
  invocation_of triples = Some i ->
  filterByRange rows (triples_of i) = filterByRange rows triples.
Proof.
  intros H.
  destruct triples as [| [[f1 x1] t1] triples]; [discriminate |].
  destruct triples as [| [[f2 x2] t2] triples].
  - destruct f1; cbn in H; inversion H; subst; reflexivity.
  - destruct triples as [| t3 triples]; [| destruct f1, f2; discriminate].
    destruct f1, f2; cbn in H; try discriminate; inversion H; subst;
      cbn [triples_of]; reflexivity || apply filterByRange_swap.
Qed.

Lemma invocation_of_negative (triples : list Triple) (i : Invocation) :
  invocation_of triples = Some i ->
  has_negative_tolerance (triples_of i) = has_negative_tolerance triples.
Proof.
  intros H. unfold has_negative_tolerance.
  destruct triples as [| [[f1 x1] t1] triples]; [discriminate |].
  destruct triples as [| [[f2 x2] t2] triples].
  - destruct f1; cbn in H; inversion H; subst; reflexivity.
  - destruct triples as [| t3 triples]; [| destruct f1, f2; discriminate].
    destruct f1, f2; cbn in H; try discriminate; inversion H; subst;
      cbn [triples_of existsb tolerance_of snd]; rewrite ?orb_false_r;
      reflexivity || apply orb_comm.
Qed.


Lemma feq_sym (a b : float) : feq a b = true -> feq b a = true.
Proof.
  destruct a as [x | | |], b as [y | | |];
    cbn [feq]; try discriminate; try reflexivity.
  apply Qeq_bool_sym.
Qed.





End RangeFilter.

(** ** Claims about the range filters *)

(** The filter on the records of [tenths_records] around 2.0 with the
    tolerance 0.1: the bounds are the floats 1.9 and 2.1, and all three
    records are selected. *)
Example filter_bounds_are_rounded :
  fsub (Fin 2) (float_literal (1 # 10)) = float_literal (19 # 10)
  /\ fadd (Fin 2) (float_literal (1 # 10)) = float_literal (21 # 10)
  /\ run (Uebersetzung_tab (Fin 2) (float_literal (1 # 10)))
         (initial_globals tenths_records)
     = Ok (set_gear_ratio_filtered (initial_globals tenths_records)
             (Rows tenths_records)).
Proof. repeat split; vm_compute; reflexivity. Qed.

(** C6, as stated, fails.  On the empty record set the filter raises
    [KeyError]: the frame made from no record has no column to compare.
    And the bounds are floats: around 2.0 with the tolerance 0.1 the record
    with the gear ratio 2.1 is returned, although the exact sum of the
    target and the tolerance lies below that gear ratio. *)
Lemma range_filter_without_records_and_rounded_bounds :
  run (Uebersetzung_tab (Fin 2) (Fin (1 # 2))) (initial_globals [])
  = Raise KeyError
  /\ float_literal (1 # 10) = Fin (3602879701896397 # 36028797018963968)
  /\ float_literal (21 # 10) = Fin (4728779608739021 # 2251799813685248)
  /\ (2 + (3602879701896397 # 36028797018963968)
      < 4728779608739021 # 2251799813685248)%Q
  /\ exists g',
       run (Uebersetzung_tab (Fin 2) (float_literal (1 # 10)))
           (initial_globals tenths_records) = Ok g'
       /\ option_map (fun frame => getitem_column frame Uebersetzung)
                     (gear_ratio_filtered g')
          = Some (Ok [VFloat (float_literal (19 # 10)); int 2;
                      VFloat (float_literal (21 # 10))]).
Proof.
  split; [reflexivity |].
  split; [vm_compute; reflexivity |]. split; [vm_compute; reflexivity |].
  split; [reflexivity |].
  eexists. split; [vm_compute; reflexivity | vm_compute; reflexivity].
Qed.

(** C6, amended.  For every record set that is not empty (its gear-ratio
    and torque columns holding floats) and every list of one or two triples
    [(field, target, tolerance)] that a tab filters on, the filter returns
    exactly the records with
    [target - tolerance <= record[field] <= target + tolerance] for each of
    the triples, the two bounds being the floats that the subtraction and
    the addition yield (the exact difference and sum rounded to nearest,
    ties to even), bounds included, in the order of the input; the input
    record set [df_all] is left as it was. *)
Theorem range_filter_selects_in_range
    (triples : list Triple) (i : Invocation) (g : Globals)
    (records : list Variante) :
  invocation_of triples = Some i ->
  records <> [] ->
  df_all g = DataFrame_of records ->
  forallb float_fields records = true ->
  exists g',
    run i g = Ok g'
    /\ filtered i g' = Some (Rows (filterByRange records triples))
    /\ (forall r,
          In r (filterByRange records triples)
          <-> In r records /\ forall t, In t triples -> in_range r t = true)
    /\ (forall f target tolerance,
          In (f, Fin target, Fin tolerance) triples ->
          rounds_to (target - tolerance)
                    (lower_bound (f, Fin target, Fin tolerance))
          /\ rounds_to (target + tolerance)
                       (upper_bound (f, Fin target, Fin tolerance)))
    /\ subsequence (filterByRange records triples) records
    /\ df_all g' = DataFrame_of records.
Proof.
  intros Hi Hne Hdf H.
  assert (Hrows : DataFrame_of records = Rows records).
  { destruct records; [contradiction | reflexivity]. }
  rewrite Hrows in *.
  destruct (run_spec i g records Hdf H) as (g' & Hrun & Hout & Hsame).
  rewrite (invocation_of_triples records triples i Hi) in Hout.
  exists g'. split; [exact Hrun |]. split; [exact Hout |].
  split; [intros r; apply filterByRange_In |].
  split; [intros f target tolerance _; split; apply binary64_spec |].
  split; [apply filter_subsequence | rewrite Hsame; exact Hdf].
Qed.

Lemma range_filter_selects_in_range_sample :
  invocation_of [(gearRatio, Fin 2, Fin (1 # 2))]
  = Some (Uebersetzung_tab (Fin 2) (Fin (1 # 2)))
  /\ sample_records <> []
  /\ df_all (initial_globals sample_records) = DataFrame_of sample_records
  /\ forallb float_fields sample_records = true
  /\ exists g',
       run (Uebersetzung_tab (Fin 2) (Fin (1 # 2)))
           (initial_globals sample_records) = Ok g'
       /\ gear_ratio_filtered g'
          = Some (Rows (filter
                    (fun r => fle (Fin (3 # 2)) (as_float (Uebersetzung r))
                              && fle (as_float (Uebersetzung r)) (Fin (5 # 2)))
                    sample_records))
       /\ option_map (fun frame => getitem_column frame Uebersetzung)
                     (gear_ratio_filtered g')
          = Some (Ok [num (3 # 2); num (5 # 2); int 2])
       /\ df_all g' = DataFrame_of sample_records.
Proof.
  split; [reflexivity |]. split; [discriminate |].
  split; [reflexivity |]. split; [reflexivity |].
  destruct (range_filter_selects_in_range
              [(gearRatio, Fin 2, Fin (1 # 2))]
              (Uebersetzung_tab (Fin 2) (Fin (1 # 2)))
              (initial_globals sample_records) sample_records)
    as (g' & Hrun & Hout & _ & _ & _ & Hsame);
    [reflexivity | discriminate | reflexivity | reflexivity |].
  exists g'. split; [exact Hrun |].
  cbn [filtered] in Hout. rewrite Hout.
  split; [vm_compute; reflexivity |].
  split; [vm_compute; reflexivity | exact Hsame].
Defined.

(** The filter of an empty frame is the empty frame; the frame made from
    no record at all has no columns to filter on. *)
Example filter_of_empty_frame :
  forall g, df_all g = Rows [] ->
    exists g', run (Uebersetzung_tab (Fin 2) (Fin (1 # 2))) g = Ok g'
               /\ gear_ratio_filtered g' = Some (Rows []).
Proof.
  intros g Hdf.
  destruct (run_spec (Uebersetzung_tab (Fin 2) (Fin (1 # 2))) g [] Hdf)
    as (g' & Hrun & Hout & _); [reflexivity |].
  exists g'. split; assumption.
Qed.

Example filter_without_columns :
  run (Uebersetzung_tab (Fin 2) (Fin (1 # 2))) (initial_globals [])
  = Raise KeyError.
Proof. reflexivity. Qed.

(** A text in the filtered column makes the comparison raise. *)
Example filter_on_text :
  run (Rotor_tab (Fin 2) (Fin 1)) (initial_globals [block_record grid_malformed 0 1])
  = Raise TypeError.
Proof. vm_compute; reflexivity. Qed.

(** A negative tolerance small enough is absorbed by the rounding of the
    bounds: around 2.0 with the tolerance -1e-17 both bounds are 2.0, and
    the record with the gear ratio 2.0 is returned. *)
Example negative_tolerance_absorbed :
  negative (float_literal (- 1 # 10 ^ 17)) = true
  /\ fsub (Fin 2) (float_literal (- 1 # 10 ^ 17)) = Fin 2
  /\ fadd (Fin 2) (float_literal (- 1 # 10 ^ 17)) = Fin 2
  /\ exists g',
       run (Uebersetzung_tab (Fin 2) (float_literal (- 1 # 10 ^ 17)))
           (initial_globals tenths_records) = Ok g'
       /\ option_map (fun frame => getitem_column frame Uebersetzung)
                     (gear_ratio_filtered g')
          = Some (Ok [int 2]).
Proof.
  split; [vm_compute; reflexivity |].
  split; [vm_compute; reflexivity |]. split; [vm_compute; reflexivity |].
  eexists. split; vm_compute; reflexivity.
Qed.




(** * Further properties *)

(** ** The quality factor on all its inputs *)

Section QualityEverywhere.

Local Open Scope Z_scope.

(** X1.  On any two numbers the quality factor is decided by their nearest
    integers alone, the even one for a number halfway between two: a
    division by zero when one of them is 0, and otherwise their greatest
    common divisor as a float, negative pole counts being scored like
    positive ones; up to 2^53 that is the divisor itself, beyond it the
    float nearest to it or, out of range, an [OverflowError]. *)
Theorem quality_on_numbers (x y : Q) :
  nearest_integer x (round_half_even x)
  /\ nearest_integer y (round_half_even y)
  /\ exists f,
       rounds_to (inject_Z (Z.gcd (round_half_even x) (round_half_even y))) f
       /\ classify (num x) (num y)
          = if (round_half_even x =? 0) || (round_half_even y =? 0)
            then Raise ZeroDivisionError
            else if Z.gcd (round_half_even x) (round_half_even y) <=? 2 ^ 53
                 then Ok (Fin (inject_Z
                            (Z.gcd (round_half_even x) (round_half_even y))))
                 else finite_or_overflow f.
Proof.
  split; [apply round_half_even_nearest |].
  split; [apply round_half_even_nearest |].
  eexists. split; [apply binary64_spec |].
  destruct (Z.eqb_spec (round_half_even x) 0) as [Ex | Hx]; cbn [orb].
  - apply classify_zero. left. exact Ex.
  - destruct (Z.eqb_spec (round_half_even y) 0) as [Ey | Hy].
    + apply classify_zero. right. exact Ey.
    + rewrite classify_nonzero by assumption.
      destruct (Z.leb_spec (Z.gcd (round_half_even x) (round_half_even y))
                           (2 ^ 53)) as [Hle | _]; [| reflexivity].
      apply finite_or_overflow_exact. split; [| exact Hle].
      pose proof (Z.gcd_nonneg (round_half_even x) (round_half_even y)).
      assert (Z.gcd (round_half_even x) (round_half_even y) <> 0); [| lia].
      intro E. apply Z.gcd_eq_0_l in E. contradiction.
Qed.

Lemma scorable_number (v : value) :
  scorable v = true ->
  exists q, v = num q /\ rounded v = round_half_even q
            /\ round_half_even q <> 0.
Proof.
  destruct v as [[q | | |] | s]; try discriminate. cbn. intros H.
  exists q. split; [reflexivity |]. split; [reflexivity |].
  apply negb_true_iff in H. apply Z.eqb_neq in H. exact H.
Qed.

Lemma gcd_nonzero_pos (a b : Z) : a <> 0 -> 1 <= Z.gcd a b.
Proof.
  intros Ha. pose proof (Z.gcd_nonneg a b).
  assert (Z.gcd a b <> 0); [| lia].
  intro E. apply Z.gcd_eq_0_l in E. contradiction.
Qed.

Lemma berechne_qualitaet_scorable (row : Variante) :
  scorable_row row = true ->
  exists g, 1 <= g /\ berechne_qualitaet row = Ok (Fin (inject_Z g)).
Proof.
  unfold scorable_row. intros H. apply andb_prop in H. destruct H as [H Hfit].
  apply andb_prop in H. destruct H as [Hm Hr].
  destruct (scorable_number _ Hm) as (y & Ey & Ry & Hy).
  destruct (scorable_number _ Hr) as (x & Ex & Rx & Hx).
  rewrite Ry, Rx, Z.gcd_comm in Hfit. apply Z.ltb_lt in Hfit.
  rewrite berechne_qualitaet_classify, Ex, Ey, classify_nonzero by assumption.
  destruct (binary64_of_whole _ (gcd_nonzero_pos _ (round_half_even y) Hx))
    as [(_ & g & E & Hg & _) | [G _]]; [| lia].
  exists g. split; [exact Hg | rewrite E; reflexivity].
Qed.

Lemma berechne_qualitaet_not_scorable (row : Variante) :
  scorable_row row = false -> exists e, berechne_qualitaet row = Raise e.
Proof.
  unfold scorable_row. rewrite berechne_qualitaet_classify.
  destruct (Modulatorzahl row) as [[y | | |] | s];
    try (intros _; eexists; reflexivity).
  destruct (Polzahl_Rotor row) as [[x | | |] | s];
    try (intros _; eexists; reflexivity).
  cbn [scorable rounded]. fold (num x). fold (num y).
  destruct (Z.eqb_spec (round_half_even y) 0) as [Ey | Hy];
    [intros _; exists ZeroDivisionError; apply classify_zero; right; exact Ey |].
  destruct (Z.eqb_spec (round_half_even x) 0) as [Ex | Hx];
    [intros _; exists ZeroDivisionError; apply classify_zero; left; exact Ex |].
  cbn [negb andb]. intros H. apply Z.ltb_ge in H. rewrite Z.gcd_comm in H.
  exists OverflowError. rewrite classify_nonzero by assumption.
  rewrite binary64_overflow by exact H. reflexivity.
Qed.

(** Two cells one of which holds a binary64 number or a 64-bit integer:
    the greatest common divisor of their pole counts has a float. *)
Lemma scorable_row_bounded (row : Variante) :
  scorable (Modulatorzahl row) = true -> scorable (Polzahl_Rotor row) = true ->
  Z.abs (rounded (Modulatorzahl row)) < float_limit
  \/ Z.abs (rounded (Polzahl_Rotor row)) < float_limit ->
  scorable_row row = true.
Proof.
  intros Hm Hr Hb. unfold scorable_row. rewrite Hm, Hr. cbn [andb].
  destruct (scorable_number _ Hm) as (y & _ & Ry & Hy).
  destruct (scorable_number _ Hr) as (x & _ & Rx & Hx).
  rewrite Ry, Rx in *. apply Z.ltb_lt.
  assert (Ly : Z.gcd (round_half_even y) (round_half_even x)
               <= Z.abs (round_half_even y)).
  { apply Z.divide_pos_le; [lia |]. apply Z.divide_abs_r, Z.gcd_divide_l. }
  assert (Lx : Z.gcd (round_half_even y) (round_half_even x)
               <= Z.abs (round_half_even x)).
  { apply Z.divide_pos_le; [lia |]. apply Z.divide_abs_r, Z.gcd_divide_r. }
  lia.
Qed.

(** Pole counts that can be scored one by one, and a quality factor that
    overflows all the same. *)
Example scorable_counts_overflow :
  scorable (int (2 ^ 1024)) = true
  /\ scorable_row (row_of (int (2 ^ 1024)) (int (2 ^ 1024))) = false
  /\ berechne_qualitaet (row_of (int (2 ^ 1024)) (int (2 ^ 1024)))
     = Raise OverflowError.
Proof. repeat split; vm_compute; reflexivity. Qed.

(** X2.  The quality factor of a row comes back exactly when both pole
    counts are numbers whose nearest integer is not 0 and whose greatest
    common divisor is not too large for a float, and then it is a whole
    number from 1 upwards; in every other case (a blank, an infinity, a
    text, a count that rounds to 0, an overflow) an exception is raised. *)
Theorem quality_returns_iff_scorable (row : Variante) :
  ((exists g, 1 <= g /\ berechne_qualitaet row = Ok (Fin (inject_Z g)))
   <-> scorable_row row = true)
  /\ ((exists e, berechne_qualitaet row = Raise e)
      <-> scorable_row row = false).
Proof.
  split; split.
  - intros (g & _ & Hg). destruct (scorable_row row) eqn:E; [reflexivity |].
    destruct (berechne_qualitaet_not_scorable row E) as [e He]. congruence.
  - apply berechne_qualitaet_scorable.
  - intros [e He]. destruct (scorable_row row) eqn:E; [| reflexivity].
    destruct (berechne_qualitaet_scorable row E) as (g & _ & Hg). congruence.
  - apply berechne_qualitaet_not_scorable.
Qed.

Lemma feq_inject_Z (g k : Z) : feq (Fin (inject_Z g)) (Fin (inject_Z k)) = (g =? k).
Proof.
  unfold feq, Qeq_bool, inject_Z. cbn [Qnum Qden].
  rewrite !Z.mul_1_r. reflexivity.
Qed.

Lemma farbe_of_integer (g : Z) :
  farbe_und_zentrierung (Fin (inject_Z g))
  = if g =? 1 then gruen else if g =? 2 then gelb else rot.
Proof.
  unfold farbe_und_zentrierung.
  change (Fin 1) with (Fin (inject_Z 1)). change (Fin 2) with (Fin (inject_Z 2)).
  rewrite !feq_inject_Z. reflexivity.
Qed.

(** X3.  The colour of a row follows the greatest common divisor of the
    rounded pole counts, as long as that has a float: green exactly when
    they are coprime, yellow exactly when the divisor is 2, red exactly when
    it is 3 or more. *)
Theorem colour_by_gcd (x y : Q) :
  round_half_even x <> 0 -> round_half_even y <> 0 ->
  Z.gcd (round_half_even x) (round_half_even y) < float_limit ->
  exists q,
    classify (num x) (num y) = Ok q
    /\ (farbe_und_zentrierung q = gruen
        <-> Z.gcd (round_half_even x) (round_half_even y) = 1)
    /\ (farbe_und_zentrierung q = gelb
        <-> Z.gcd (round_half_even x) (round_half_even y) = 2)
    /\ (farbe_und_zentrierung q = rot
        <-> 3 <= Z.gcd (round_half_even x) (round_half_even y)).
Proof.
  intros Hx Hy Hfit. rewrite classify_nonzero by assumption.
  set (g := Z.gcd (round_half_even x) (round_half_even y)) in *.
  assert (Hg : 1 <= g) by (apply gcd_nonzero_pos; exact Hx).
  destruct (binary64_of_whole g Hg)
    as [(_ & g' & E & Hg' & Hsmall & Hlarge) | [G _]]; [| lia].
  exists (Fin (inject_Z g')). split; [rewrite E; reflexivity |].
  rewrite farbe_of_integer.
  change (2 ^ 53) with 9007199254740992 in *.
  assert (Hcases : g' = g \/ (9007199254740992 <= g /\ 9007199254740992 <= g'))
    by lia.
  destruct (Z.eqb_spec g' 1) as [E1 | N1];
    [| destruct (Z.eqb_spec g' 2) as [E2 | N2]];
    repeat split; intros H; try reflexivity; try lia; try discriminate H.
Qed.

Lemma colour_by_gcd_fractional :
  round_half_even (41 # 2) <> 0 /\ round_half_even (15 # 2) <> 0
  /\ Z.gcd (round_half_even (41 # 2)) (round_half_even (15 # 2)) < float_limit
  /\ exists q,
       classify (num (41 # 2)) (num (15 # 2)) = Ok q
       /\ (farbe_und_zentrierung q = gruen <-> Z.gcd 20 8 = 1)
       /\ (farbe_und_zentrierung q = gelb <-> Z.gcd 20 8 = 2)
       /\ (farbe_und_zentrierung q = rot <-> 3 <= Z.gcd 20 8).
Proof.
  split; [discriminate |]. split; [discriminate |]. split; [reflexivity |].
  apply (colour_by_gcd (41 # 2) (15 # 2)); [discriminate | discriminate |].
  reflexivity.
Defined.

End QualityEverywhere.

(** ** More about extraction *)

Section ExtractionMore.

Lemma rectangular_app (df extra : DataFrame) :
  df <> [] -> rectangular (df ++ extra) = true -> rectangular df = true.
Proof.
  intros Hne H. unfold rectangular in *.
  assert (E : ncols (df ++ extra) = ncols df).
  { destruct df; [contradiction | reflexivity]. }
  rewrite E, forallb_app in H. apply andb_prop in H. apply H.
Qed.

Lemma complete_blocks_app (df extra : DataFrame) :
  df <> [] ->
  (len df - 1) mod 5 + length extra < 5 ->
  complete_blocks (df ++ extra) = complete_blocks df.
Proof.
  intros Hne H. unfold complete_blocks, len in *. rewrite length_app.
  assert (Hlen : 0 < length df).
  { destruct df; [contradiction | simpl; lia]. }
  pose proof (Nat.div_mod_eq (length df - 1) 5) as E.
  symmetry.
  apply (Nat.div_unique _ 5 _ ((length df - 1) mod 5 + length extra)); lia.
Qed.

Lemma cell_app (df extra : DataFrame) (r c : nat) :
  r < len df -> cell (df ++ extra) r c = cell df r c.
Proof.
  intros Hr. unfold cell. rewrite app_nth1 by exact Hr. reflexivity.
Qed.

Lemma extract_spec_app (df extra : DataFrame) :
  df <> [] ->
  (len df - 1) mod 5 + length extra < 5 ->
  extract_spec (df ++ extra) = extract_spec df.
Proof.
  intros Hne H. unfold extract_spec, columns.
  rewrite complete_blocks_app by assumption.
  assert (E : ncols (df ++ extra) = ncols df).
  { destruct df; [contradiction | reflexivity]. }
  rewrite E. apply flat_map_ext. intros c.
  apply map_ext_in. intros k Hk. apply in_seq in Hk.
  assert (Hb : 1 + 5 * k + 4 < len df).
  { unfold complete_blocks in Hk.
    pose proof (Nat.div_mod_eq (len df - 1) 5).
    pose proof (Nat.mod_upper_bound (len df - 1) 5 ltac:(lia)). nia. }
  unfold block_record. rewrite !cell_app by lia. reflexivity.
Qed.

(** X4.  Rows below the last complete block are never read: appending
    rows to a sheet changes nothing as long as they do not complete another
    block of five. *)
Theorem trailing_rows_are_ignored (df extra : DataFrame) :
  df <> [] ->
  rectangular (df ++ extra) = true ->
  (len df - 1) mod 5 + length extra < 5 ->
  results_loop (df ++ extra) = results_loop df
  /\ extraction (df ++ extra) = extraction df.
Proof.
  intros Hne Hrect H.
  pose proof (rectangular_app df extra Hne Hrect) as Hdf.
  assert (Hne' : df ++ extra <> []).
  { destruct df; [contradiction | discriminate]. }
  rewrite (results_loop_spec _ Hrect), (results_loop_spec _ Hdf).
  rewrite (extraction_spec _ Hrect Hne'), (extraction_spec _ Hdf Hne).
  rewrite extract_spec_app by assumption. split; reflexivity.
Qed.

Lemma trailing_rows_are_ignored_grid6 :
  grid6 <> []
  /\ rectangular (grid6 ++ [[int 99]; [blank]; [VStr "x"]; [int 7]]) = true
  /\ (len grid6 - 1) mod 5 + 4 < 5
  /\ results_loop (grid6 ++ [[int 99]; [blank]; [VStr "x"]; [int 7]])
     = Ok [variant6]
  /\ extraction (grid6 ++ [[int 99]; [blank]; [VStr "x"]; [int 7]])
     = Ok [variant6].
Proof.
  split; [discriminate |]. split; [reflexivity |].
  split; [vm_compute; lia |].
  apply (trailing_rows_are_ignored grid6
           [[int 99]; [blank]; [VStr "x"]; [int 7]]);
    [discriminate | reflexivity | vm_compute; lia].
Defined.

Lemma extract_spec_nil_iff (df : DataFrame) :
  extract_spec df = [] <-> len df < 6 \/ ncols df = 0.
Proof.
  pose proof (extract_spec_length df) as L.
  assert (Hnb : complete_blocks df = 0 <-> len df < 6).
  { unfold complete_blocks. rewrite Nat.div_small_iff by lia. lia. }
  split.
  - intros E. rewrite E in L. simpl in L.
    destruct (ncols df); [right; reflexivity |].
    left. apply Hnb. nia.
  - intros H. apply length_zero_iff_nil. rewrite L.
    destruct H as [H | H]; [apply Hnb in H; rewrite H; lia | rewrite H; lia].
Qed.

(** X5.  A sheet yields no record at all exactly when it has fewer than 6
    rows or no column. *)
Theorem no_records_iff_short (df : DataFrame) :
  rectangular df = true ->
  (results_loop df = Ok [] <-> len df < 6 \/ ncols df = 0).
Proof.
  intros Hrect. rewrite (results_loop_spec _ Hrect). split.
  - intros E. injection E as E. apply extract_spec_nil_iff. exact E.
  - intros H. f_equal. apply extract_spec_nil_iff. exact H.
Qed.

Lemma no_records_iff_short_five_rows :
  rectangular (firstn 5 grid6) = true
  /\ (results_loop (firstn 5 grid6) = Ok [] <-> 5 < 6 \/ 1 = 0).
Proof.
  split; [reflexivity |].
  apply (no_records_iff_short (firstn 5 grid6)). reflexivity.
Defined.

Lemma map_const_seq {A : Type} (a : A) (n : nat) :
  forall start, map (fun _ => a) (seq start n) = repeat a n.
Proof.
  induction n as [| n IH]; intros start; [reflexivity |].
  cbn [seq map repeat]. f_equal. apply IH.
Qed.

Lemma map_Spalte_blocks (df : DataFrame) (cols : list nat) :
  map Spalte
    (flat_map (fun c => map (block_record df c) (seq 0 (complete_blocks df)))
              cols)
  = flat_map (fun c => repeat c (complete_blocks df)) cols.
Proof.
  induction cols as [| c cols IH]; [reflexivity |].
  cbn [flat_map]. rewrite map_app, IH. f_equal.
  rewrite map_map. cbn [block_record Spalte]. apply map_const_seq.
Qed.

(** X6.  The records come out column by column: the column numbers of
    [results] are 0, ..., 0, 1, ..., 1, ... with as many of each as there are
    complete blocks, and every record carries the stator pole count of row
    0 of its own column. *)
Theorem records_grouped_by_column (df : DataFrame) :
  rectangular df = true ->
  exists rs,
    results_loop df = Ok rs
    /\ map Spalte rs
       = flat_map (fun c => repeat c (complete_blocks df)) (columns df)
    /\ forall r,
         In r rs ->
         Spalte r < ncols df /\ Polzahl_Stator r = cell df 0 (Spalte r).
Proof.
  intros Hrect. exists (extract_spec df).
  split; [apply results_loop_spec; assumption |].
  split; [apply map_Spalte_blocks |].
  intros r Hin. apply extract_spec_In in Hin.
  destruct Hin as (c & k & Hc & _ & ->). split; [exact Hc | reflexivity].
Qed.

Lemma records_grouped_by_column_malformed :
  rectangular grid_malformed = true
  /\ exists rs,
       results_loop grid_malformed = Ok rs
       /\ map Spalte rs = [0; 0; 1; 1]
       /\ forall r,
            In r rs ->
            Spalte r < 2 /\ Polzahl_Stator r = cell grid_malformed 0 (Spalte r).
Proof.
  split; [reflexivity |].
  apply (records_grouped_by_column grid_malformed). reflexivity.
Defined.

Lemma filter_none {A : Type} (p : A -> bool) (l : list A) :
  (forall a, In a l -> p a = false) -> filter p l = [].
Proof.
  induction l as [| a l IH]; intros H; [reflexivity |].
  cbn [filter]. rewrite (H a (or_introl eq_refl)).
  apply IH. intros b Hb. apply H. right. exact Hb.
Qed.

Lemma records_of_column_blocks (F : nat -> list Variante) (c : nat) :
  (forall c' r, In r (F c') -> Spalte r = c') ->
  forall n start,
    records_of_column c (flat_map F (seq start n))
    = if (start <=? c) && (c <? start + n) then F c else [].
Proof.
  intros HF n. unfold records_of_column.
  induction n as [| n IH]; intros start.
  - cbn [seq flat_map filter].
    destruct (Nat.leb_spec start c), (Nat.ltb_spec c (start + 0));
      cbn [andb]; try reflexivity; lia.
  - cbn [seq flat_map]. rewrite filter_app, IH.
    destruct (Nat.eq_dec start c) as [-> | Hneq].
    + assert (E : filter (fun r => Spalte r =? c) (F c) = F c).
      { apply forallb_filter_id. apply forallb_forall. intros r Hr.
        apply Nat.eqb_eq. eapply HF; eauto. }
      rewrite E.
      destruct (Nat.leb_spec (S c) c), (Nat.leb_spec c c),
               (Nat.ltb_spec c (S c + n)), (Nat.ltb_spec c (c + S n));
        cbn [andb]; try lia; apply app_nil_r.
    + assert (E : filter (fun r => Spalte r =? c) (F start) = []).
      { apply filter_none. intros r Hr.
        apply Nat.eqb_neq. rewrite (HF _ _ Hr). exact Hneq. }
      rewrite E. cbn [app].
      destruct (Nat.leb_spec (S start) c), (Nat.leb_spec start c),
               (Nat.ltb_spec c (S start + n)), (Nat.ltb_spec c (start + S n));
        cbn [andb]; try reflexivity; lia.
Qed.

Lemma records_of_column_spec (df : DataFrame) (c : nat) :
  c < ncols df ->
  records_of_column c (extract_spec df)
  = map (block_record df c) (seq 0 (complete_blocks df)).
Proof.
  intros Hc. unfold extract_spec, columns.
  rewrite records_of_column_blocks.
  - destruct (Nat.ltb_spec c (0 + ncols df)); [reflexivity | lia].
  - intros c' r Hin. apply in_map_iff in Hin.
    destruct Hin as (k & <- & _). reflexivity.
Qed.

(** X7.  Every column is processed on its own: two sheets of the same
    height that agree on one column yield the same records for that column,
    whatever their other columns hold. *)
Theorem columns_are_independent (df df' : DataFrame) (c : nat) :
  rectangular df = true -> rectangular df' = true ->
  len df = len df' ->
  c < ncols df -> c < ncols df' ->
  (forall r, r < len df -> cell df r c = cell df' r c) ->
  exists rs rs',
    results_loop df = Ok rs
    /\ results_loop df' = Ok rs'
    /\ records_of_column c rs = records_of_column c rs'.
Proof.
  intros Hrect Hrect' Hlen Hc Hc' Hcells.
  exists (extract_spec df), (extract_spec df').
  split; [apply results_loop_spec; assumption |].
  split; [apply results_loop_spec; assumption |].
  rewrite !records_of_column_spec by assumption.
  assert (Enb : complete_blocks df' = complete_blocks df).
  { unfold complete_blocks. rewrite Hlen. reflexivity. }
  rewrite Enb. apply map_ext_in. intros k Hk. apply in_seq in Hk.
  assert (Hb : 1 + 5 * k + 4 < len df).
  { apply complete_blocks_bounds. lia. }
  unfold block_record. rewrite !Hcells by lia. reflexivity.
Qed.

End ExtractionMore.

Lemma columns_are_independent_malformed :
  rectangular grid_malformed = true
  /\ rectangular (map (fun row => [hd blank row; int 1]) grid_malformed) = true
  /\ len grid_malformed
     = len (map (fun row => [hd blank row; int 1]) grid_malformed)
  /\ 0 < ncols grid_malformed
  /\ 0 < ncols (map (fun row => [hd blank row; int 1]) grid_malformed)
  /\ (forall r, r < len grid_malformed ->
        cell grid_malformed r 0
        = cell (map (fun row => [hd blank row; int 1]) grid_malformed) r 0)
  /\ exists rs rs',
       results_loop grid_malformed = Ok rs
       /\ results_loop (map (fun row => [hd blank row; int 1]) grid_malformed)
          = Ok rs'
       /\ records_of_column 0 rs = records_of_column 0 rs'.
Proof.
  assert (H : forall r, r < len grid_malformed ->
                cell grid_malformed r 0
                = cell (map (fun row => [hd blank row; int 1]) grid_malformed) r 0).
  { intros r Hr.
    do 11 (destruct r as [| r]; [reflexivity |]).
    vm_compute in Hr. lia. }
  split; [reflexivity |]. split; [reflexivity |]. split; [reflexivity |].
  split; [vm_compute; lia |]. split; [vm_compute; lia |].
  split; [exact H |].
  apply (columns_are_independent grid_malformed
           (map (fun row => [hd blank row; int 1]) grid_malformed) 0);
    [reflexivity | reflexivity | reflexivity
     | vm_compute; lia | vm_compute; lia | exact H].
Defined.

(** ** More about the filters *)

Section FiltersMore.

Lemma series_ge_spec (col : Variante -> value) (rows : list Variante)
    (x : float) :
  series_ge (map col rows) x
  = if forallb (fun r => is_float (col r)) rows
    then Ok (map (fun r => fle x (as_float (col r))) rows)
    else Raise TypeError.
Proof.
  unfold series_ge. induction rows as [| r rows IH]; [reflexivity |].
  cbn [map mapM forallb]. rewrite IH.
  destruct (col r) as [f | s]; [| reflexivity]. cbn [is_float andb bind as_float].
  destruct (forallb (fun r => is_float (col r)) rows); cbn [bind];
    [rewrite fge_fle |]; reflexivity.
Qed.

Lemma series_le_spec (col : Variante -> value) (rows : list Variante)
    (x : float) :
  series_le (map col rows) x
  = if forallb (fun r => is_float (col r)) rows
    then Ok (map (fun r => fle (as_float (col r)) x) rows)
    else Raise TypeError.
Proof.
  unfold series_le. induction rows as [| r rows IH]; [reflexivity |].
  cbn [map mapM forallb]. rewrite IH.
  destruct (col r) as [f | s]; [| reflexivity]. cbn [is_float andb bind as_float].
  destruct (forallb (fun r => is_float (col r)) rows); reflexivity.
Qed.

Lemma triple_mask_spec (rows : list Variante) (t : Triple) :
  triple_mask rows t
  = if text_free (fst (fst t)) rows
    then Ok (map (fun r => in_range r t) rows)
    else Raise TypeError.
Proof.
  destruct t as [[f target] tolerance]. unfold triple_mask, column_ge, column_le.
  cbn [getitem_column bind fst]. rewrite series_ge_spec, series_le_spec.
  fold (text_free f rows). destruct (text_free f rows) eqn:E; [| reflexivity].
  cbn [bind]. rewrite mask_and_map. f_equal. apply map_ext_in. intros r Hin.
  unfold text_free in E. rewrite forallb_forall in E. specialize (E r Hin).
  unfold in_range. destruct (field_value f r); [reflexivity | discriminate].
Qed.

Lemma tab_one (rows : list Variante) (t : Triple) (k : Frame -> Globals) :
  (m <- triple_mask rows t ;;
   frame <- getitem_mask (Rows rows) m ;; Ok (k frame))
  = if text_free (fst (fst t)) rows
    then Ok (k (Rows (filterByRange rows [t])))
    else Raise TypeError.
Proof.
  rewrite triple_mask_spec. destruct (text_free (fst (fst t)) rows);
    [| reflexivity].
  cbn [bind]. rewrite getitem_one. reflexivity.
Qed.

Lemma tab_two (rows : list Variante) (t1 t2 : Triple) (k : Frame -> Globals) :
  (m12 <- triple_mask rows t1 ;;
   m34 <- triple_mask rows t2 ;;
   frame <- getitem_mask (Rows rows) (mask_and m12 m34) ;; Ok (k frame))
  = if text_free (fst (fst t1)) rows && text_free (fst (fst t2)) rows
    then Ok (k (Rows (filterByRange rows [t1; t2])))
    else Raise TypeError.
Proof.
  rewrite !triple_mask_spec.
  destruct (text_free (fst (fst t1)) rows); [| reflexivity].
  destruct (text_free (fst (fst t2)) rows); [| reflexivity].
  cbn [bind andb]. rewrite mask_and_map, getitem_mask_map. cbn [bind].
  do 3 f_equal. unfold filterByRange. apply filter_ext. intros r.
  cbn. rewrite andb_true_r. reflexivity.
Qed.

Lemma filtered_assign (i : Invocation) (g : Globals) (frame : Frame) :
  filtered i (assign i g frame) = Some frame.
Proof. destruct i; reflexivity. Qed.

Lemma df_all_assign (i : Invocation) (g : Globals) (frame : Frame) :
  df_all (assign i g frame) = df_all g.
Proof. destruct i; reflexivity. Qed.

(** A tab with one triple, and a tab with two, in terms of [triple_mask]. *)
Ltac by_triple_masks :=
  unfold triple_mask; cbn [field_value];
  repeat match goal with
         | |- context [column_ge ?fr ?c ?x] =>
             destruct (column_ge fr c x); cbn [bind]; try reflexivity
         | |- context [column_le ?fr ?c ?x] =>
             destruct (column_le fr c x); cbn [bind]; try reflexivity
         end;
  rewrite ?mask_and_assoc; reflexivity.

Lemma run_no_columns (i : Invocation) (g : Globals) :
  df_all g = NoColumns -> run i g = Raise KeyError.
Proof.
  intros Hdf. destruct i; cbn [run];
    unfold tab_uebersetzung, tab_rotor, tab_mod,
           tab_combo1, tab_combo2, tab_combo3;
    rewrite Hdf; reflexivity.
Qed.

Lemma run_rows (i : Invocation) (g : Globals) (records : list Variante) :
  df_all g = Rows records ->
  run i g
  = if filterable i records
    then Ok (assign i g (Rows (filterByRange records (triples_of i))))
    else Raise TypeError.
Proof.
  intros Hdf.
  destruct i; cbn [run filterable fields_of triples_of map forallb fst assign];
    rewrite ?andb_true_r;
    unfold tab_uebersetzung, tab_rotor, tab_mod,
           tab_combo1, tab_combo2, tab_combo3;
    rewrite Hdf.
  - pose proof (tab_one records (gearRatio, selected_ratio, tolerance)
                  (set_gear_ratio_filtered g)) as E;
      (etransitivity; [| exact E]); by_triple_masks.
  - pose proof (tab_one records (rotorTorque, target, tolerance)
                  (set_torque_filtered g)) as E;
      (etransitivity; [| exact E]); by_triple_masks.
  - pose proof (tab_one records (modulatorTorque, target, tolerance)
                  (set_torque_filtered_MOD g)) as E;
      (etransitivity; [| exact E]); by_triple_masks.
  - pose proof (tab_two records (gearRatio, ratio, tolerance_i)
                  (rotorTorque, target, tolerance_T) (set_combo_filtered g)) as E;
      (etransitivity; [| exact E]); by_triple_masks.
  - pose proof (tab_two records (gearRatio, ratio, tolerance_i)
                  (modulatorTorque, target, tolerance) (set_combo_filtered g)) as E;
      (etransitivity; [| exact E]); by_triple_masks.
  - pose proof (tab_two records (modulatorTorque, target_MOD, tolerance_MOD)
                  (rotorTorque, target_Rotor, tolerance_Rotor)
                  (set_combo_filtered g)) as E;
      (etransitivity; [| exact E]); by_triple_masks.
Qed.

(** X8.  What a filter does is decided by the frame alone: on the frame
    without columns it raises [KeyError]; on a frame with the record columns
    it raises [TypeError] when a column it filters on holds a text, and
    otherwise assigns the range-filtered frame to its variable, a text in
    any other column being of no account. *)
Theorem run_on_frame (i : Invocation) (g : Globals) :
  run i g
  = match df_all g with
    | NoColumns => Raise KeyError
    | Rows records =>
        if filterable i records
        then Ok (assign i g (Rows (filterByRange records (triples_of i))))
        else Raise TypeError
    end.
Proof.
  destruct (df_all g) as [| records] eqn:Hdf.
  - apply run_no_columns. exact Hdf.
  - apply run_rows. exact Hdf.
Qed.

End FiltersMore.

Section FilterProperties.

Lemma run_filterable (i : Invocation) (g : Globals) (records : list Variante) :
  df_all g = Rows records -> filterable i records = true ->
  run i g = Ok (assign i g (Rows (filterByRange records (triples_of i)))).
Proof.
  intros Hdf Hf. rewrite (run_rows i g records Hdf), Hf. reflexivity.
Qed.

Lemma in_range_number (r : Variante) (t : Triple) :
  in_range r t = true -> is_number (field_value (fst (fst t)) r) = true.
Proof.
  destruct t as [[f target] tolerance]. unfold in_range. cbn [fst].
  destruct (field_value f r) as [[v | | |] | s];
    try discriminate; try reflexivity.
  destruct (fsub target tolerance); discriminate.
Qed.

(** X9.  A filter never selects a record whose filtered field is blank:
    in every record of the result each field of the search holds a
    number. *)
Theorem blank_fields_are_never_selected
    (i : Invocation) (g : Globals) (records : list Variante) :
  df_all g = Rows records -> filterable i records = true ->
  exists g' out,
    run i g = Ok g'
    /\ filtered i g' = Some (Rows out)
    /\ forall r f,
         In r out -> In f (fields_of i) -> is_number (field_value f r) = true.
Proof.
  intros Hdf Hf. do 2 eexists.
  split; [apply (run_filterable i g records Hdf Hf) |].
  split; [apply filtered_assign |].
  intros r f Hr Hin. apply filterByRange_In in Hr. destruct Hr as [_ Hr].
  unfold fields_of in Hin. apply in_map_iff in Hin.
  destruct Hin as (t & <- & Ht). apply in_range_number. apply Hr, Ht.
Qed.

Lemma blank_fields_are_never_selected_sample :
  df_all (initial_globals sample_records) = Rows sample_records
  /\ filterable (Modulator_tab (Fin 2) (Fin 100)) sample_records = true
  /\ exists g' out,
       run (Modulator_tab (Fin 2) (Fin 100)) (initial_globals sample_records)
       = Ok g'
       /\ torque_filtered_MOD g' = Some (Rows out)
       /\ forall r f,
            In r out -> In f [modulatorTorque] ->
            is_number (field_value f r) = true.
Proof.
  split; [reflexivity |]. split; [reflexivity |].
  apply (blank_fields_are_never_selected
           (Modulator_tab (Fin 2) (Fin 100))
           (initial_globals sample_records) sample_records); reflexivity.
Defined.

Lemma feq_fle (a b : float) : feq a b = true -> fle a b = true.
Proof.
  destruct a as [x | | |], b as [y | | |];
    cbn [feq fle]; try discriminate; try reflexivity.
  intros H. apply Qeq_bool_iff in H. apply Qle_bool_iff. lra.
Qed.

(** A target that is a float lies between its two bounds when the
    tolerance is not negative: rounding is monotone and leaves the target
    alone. *)
Lemma hits_target_in_range (r : Variante) (t : Triple) :
  hits_target r t = true -> in_range r t = true.
Proof.
  destruct t as [[f [target | | |]] [tolerance | | |]]; try discriminate.
  unfold hits_target, in_range.
  destruct (field_value f r) as [[v | | |] | s];
    rewrite ?andb_false_r; try discriminate.
  intros H. apply andb_prop in H. destruct H as [H Heq].
  apply andb_prop in H. destruct H as [Hbin Htol].
  apply Qle_bool_iff in Htol. apply Qeq_bool_iff in Heq.
  unfold is_binary64 in Hbin. cbn [fsub fadd].
  assert (Hv1 : fle (binary64 target) (Fin v) = true).
  { apply fle_trans with (Fin target); [apply feq_fle, Hbin |].
    cbn [fle]. apply Qle_bool_iff. lra. }
  assert (Hv2 : fle (Fin v) (binary64 target) = true).
  { apply fle_trans with (Fin target); [| apply feq_fle, feq_sym, Hbin].
    cbn [fle]. apply Qle_bool_iff. lra. }
  apply andb_true_intro. split.
  - apply fle_trans with (binary64 target); [| exact Hv1].
    apply binary64_mono. lra.
  - apply fle_trans with (binary64 target); [exact Hv2 |].
    apply binary64_mono. lra.
Qed.

(** X10.  With tolerances that are not negative a search always finds the
    records that hit its targets exactly, the targets being finite floats;
    a finite gear ratio picked from the values of the column therefore
    never gives an empty table. *)
Theorem exact_hits_are_selected
    (i : Invocation) (g : Globals) (records : list Variante) (r : Variante) :
  df_all g = Rows records -> filterable i records = true ->
  In r records ->
  forallb (hits_target r) (triples_of i) = true ->
  exists g' out,
    run i g = Ok g' /\ filtered i g' = Some (Rows out) /\ In r out.
Proof.
  intros Hdf Hf Hr Hhit. do 2 eexists.
  split; [apply (run_filterable i g records Hdf Hf) |].
  split; [apply filtered_assign |].
  apply filterByRange_In. split; [exact Hr |].
  intros t Ht. apply hits_target_in_range.
  rewrite forallb_forall in Hhit. apply Hhit, Ht.
Qed.

Lemma exact_hits_are_selected_sample :
  df_all (initial_globals sample_records) = Rows sample_records
  /\ filterable (Uebersetzung_tab (Fin (5 # 2)) (Fin 0)) sample_records = true
  /\ In (nth 2 sample_records variant6) sample_records
  /\ forallb (hits_target (nth 2 sample_records variant6))
             (triples_of (Uebersetzung_tab (Fin (5 # 2)) (Fin 0))) = true
  /\ exists g' out,
       run (Uebersetzung_tab (Fin (5 # 2)) (Fin 0))
           (initial_globals sample_records) = Ok g'
       /\ gear_ratio_filtered g' = Some (Rows out)
       /\ In (nth 2 sample_records variant6) out.
Proof.
  assert (Hin : In (nth 2 sample_records variant6) sample_records).
  { right. right. left. reflexivity. }
  split; [reflexivity |]. split; [reflexivity |]. split; [exact Hin |].
  split; [reflexivity |].
  apply (exact_hits_are_selected
           (Uebersetzung_tab (Fin (5 # 2)) (Fin 0))
           (initial_globals sample_records) sample_records);
    [reflexivity | reflexivity | exact Hin | reflexivity].
Defined.

Lemma filter_subsequence_impl {A : Type} (p q : A -> bool) (l : list A) :
  (forall a, In a l -> p a = true -> q a = true) ->
  subsequence (filter p l) (filter q l).
Proof.
  induction l as [| a l IH]; intros H; cbn [filter]; [constructor |].
  assert (IH' : subsequence (filter p l) (filter q l)).
  { apply IH. intros b Hb. apply H. right. exact Hb. }
  destruct (p a) eqn:Ep.
  - rewrite (H a (or_introl eq_refl) Ep). constructor. exact IH'.
  - destruct (q a); [constructor |]; exact IH'.
Qed.

Lemma wider_field (t t' : Triple) :
  wider t t' = true -> fst (fst t) = fst (fst t').
Proof.
  destruct t as [[f [x | | |]] [tol | | |]],
           t' as [[f' [x' | | |]] [tol' | | |]];
    try discriminate.
  destruct f, f'; try discriminate; reflexivity.
Qed.

Lemma wider_in_range (r : Variante) (t t' : Triple) :
  wider t t' = true -> in_range r t = true -> in_range r t' = true.
Proof.
  intros Hw. pose proof (wider_field t t' Hw) as Ef.
  destruct t as [[f [x | | |]] [tol | | |]],
           t' as [[f' [x' | | |]] [tol' | | |]];
    try discriminate.
  cbn [fst] in Ef. subst f'.
  assert (H : Qeq_bool x x' && Qle_bool tol tol' = true).
  { destruct f; exact Hw. }
  apply andb_prop in H. destruct H as [Hx Htol].
  apply Qeq_bool_iff in Hx. apply Qle_bool_iff in Htol.
  unfold in_range. destruct (field_value f r) as [v | s]; [| discriminate].
  cbn [fsub fadd]. intros H. apply andb_prop in H. destruct H as [H1 H2].
  apply andb_true_intro. split.
  - apply fle_trans with (binary64 (x - tol)); [| exact H1].
    apply binary64_mono. lra.
  - apply fle_trans with (binary64 (x + tol)); [exact H2 |].
    apply binary64_mono. lra.
Qed.

Lemma all_wider_fields (ts ts' : list Triple) :
  all_wider ts ts' = true ->
  map (fun t => fst (fst t)) ts = map (fun t => fst (fst t)) ts'.
Proof.
  revert ts'. induction ts as [| t ts IH]; intros [| t' ts'];
    try discriminate; [reflexivity |].
  cbn [all_wider map]. intros H. apply andb_prop in H. destruct H as [Hw H].
  f_equal; [apply wider_field, Hw | apply IH, H].
Qed.

Lemma all_wider_in_range (r : Variante) (ts ts' : list Triple) :
  all_wider ts ts' = true ->
  forallb (in_range r) ts = true -> forallb (in_range r) ts' = true.
Proof.
  revert ts'. induction ts as [| t ts IH]; intros [| t' ts'];
    try discriminate; [reflexivity |].
  cbn [all_wider forallb]. intros H. apply andb_prop in H.
  destruct H as [Hw H]. intros Hr. apply andb_prop in Hr.
  destruct Hr as [Hr1 Hr2]. apply andb_true_intro.
  split; [eapply wider_in_range; eauto | apply IH; assumption].
Qed.

(** X11.  Widening the tolerances never loses a record: the result of a
    search is a subsequence of the result of the same search with the same
    targets and larger tolerances. *)
Theorem wider_tolerance_keeps_records
    (i i' : Invocation) (g : Globals) (records : list Variante) :
  df_all g = Rows records -> filterable i records = true ->
  all_wider (triples_of i) (triples_of i') = true ->
  exists g1 g2 out out',
    run i g = Ok g1 /\ filtered i g1 = Some (Rows out)
    /\ run i' g = Ok g2 /\ filtered i' g2 = Some (Rows out')
    /\ subsequence out out'.
Proof.
  intros Hdf Hf Hw.
  assert (Hf' : filterable i' records = true).
  { unfold filterable, fields_of in *.
    rewrite <- (all_wider_fields _ _ Hw). exact Hf. }
  do 4 eexists.
  split; [apply (run_filterable i g records Hdf Hf) |].
  split; [apply filtered_assign |].
  split; [apply (run_filterable i' g records Hdf Hf') |].
  split; [apply filtered_assign |].
  unfold filterByRange. apply filter_subsequence_impl.
  intros r _. apply all_wider_in_range, Hw.
Qed.

Lemma wider_tolerance_keeps_records_sample :
  df_all (initial_globals sample_records) = Rows sample_records
  /\ filterable (Combo1_tab (Fin 2) (Fin (1 # 2)) (Fin 2) (Fin 1))
                sample_records = true
  /\ all_wider
       (triples_of (Combo1_tab (Fin 2) (Fin (1 # 2)) (Fin 2) (Fin 1)))
       (triples_of (Combo1_tab (Fin 2) (Fin 1) (Fin 2) (Fin 2))) = true
  /\ exists g1 g2 out out',
       run (Combo1_tab (Fin 2) (Fin (1 # 2)) (Fin 2) (Fin 1))
           (initial_globals sample_records) = Ok g1
       /\ combo_filtered g1 = Some (Rows out)
       /\ run (Combo1_tab (Fin 2) (Fin 1) (Fin 2) (Fin 2))
              (initial_globals sample_records) = Ok g2
       /\ combo_filtered g2 = Some (Rows out')
       /\ subsequence out out'.
Proof.
  split; [reflexivity |]. split; [reflexivity |]. split; [reflexivity |].
  apply (wider_tolerance_keeps_records
           (Combo1_tab (Fin 2) (Fin (1 # 2)) (Fin 2) (Fin 1))
           (Combo1_tab (Fin 2) (Fin 1) (Fin 2) (Fin 2))
           (initial_globals sample_records) sample_records); reflexivity.
Defined.

End FilterProperties.

Section FilterComposition.

Lemma filterByRange_two (rows : list Variante) (t1 t2 : Triple) :
  filterByRange rows [t1; t2] = filterByRange (filterByRange rows [t1]) [t2].
Proof.
  unfold filterByRange. induction rows as [| r rows IH]; [reflexivity |].
  cbn [filter forallb]. rewrite !andb_true_r.
  destruct (in_range r t1); cbn [andb filter forallb];
    rewrite ?andb_true_r; [| exact IH].
  destruct (in_range r t2); [f_equal |]; exact IH.
Qed.

Lemma parts_triples (i i1 i2 : Invocation) :
  parts i = Some (i1, i2) ->
  exists t1 t2,
    triples_of i = [t1; t2] /\ triples_of i1 = [t1] /\ triples_of i2 = [t2].
Proof.
  destruct i; try discriminate; intros H; injection H as <- <-;
    do 2 eexists; repeat split.
Qed.

(** X12.  A combined search is the conjunction of its two single searches:
    it returns the records that both return, in their order, and it is the
    second search applied to the result of the first. *)
Theorem combined_search_is_intersection
    (i i1 i2 : Invocation) (g : Globals) (records : list Variante) :
  parts i = Some (i1, i2) ->
  df_all g = Rows records -> filterable i records = true ->
  exists gc g1 g2 out out1 out2,
    run i g = Ok gc /\ filtered i gc = Some (Rows out)
    /\ run i1 g = Ok g1 /\ filtered i1 g1 = Some (Rows out1)
    /\ run i2 g = Ok g2 /\ filtered i2 g2 = Some (Rows out2)
    /\ (forall r, In r out <-> In r out1 /\ In r out2)
    /\ subsequence out out1
    /\ out = filterByRange out1 (triples_of i2).
Proof.
  intros Hp Hdf Hf.
  destruct (parts_triples i i1 i2 Hp) as (t1 & t2 & E & E1 & E2).
  assert (Hf12 : filterable i1 records = true /\ filterable i2 records = true).
  { unfold filterable, fields_of in *. rewrite E in Hf. rewrite E1, E2.
    cbn [map forallb] in *. apply andb_prop in Hf. destruct Hf as [H1 H2].
    split; [rewrite H1 | exact H2]; reflexivity. }
  destruct Hf12 as [Hf1 Hf2].
  exists (assign i g (Rows (filterByRange records (triples_of i)))),
         (assign i1 g (Rows (filterByRange records (triples_of i1)))),
         (assign i2 g (Rows (filterByRange records (triples_of i2)))).
  do 3 eexists.
  split; [apply (run_filterable i g records Hdf Hf) |].
  split; [apply filtered_assign |].
  split; [apply (run_filterable i1 g records Hdf Hf1) |].
  split; [apply filtered_assign |].
  split; [apply (run_filterable i2 g records Hdf Hf2) |].
  split; [apply filtered_assign |].
  rewrite E, E1, E2. split; [| split].
  - intros r. rewrite !filterByRange_In. cbn [In]. split.
    + intros [Hr H]. repeat split; try exact Hr;
        intros t [<- | []]; apply H; auto.
    + intros [[Hr H1] [_ H2]]. split; [exact Hr |].
      intros t [<- | [<- | []]]; [apply H1 | apply H2]; left; reflexivity.
  - rewrite filterByRange_two. apply filter_subsequence.
  - apply filterByRange_two.
Qed.

Lemma combined_search_is_intersection_sample :
  parts (Combo3_tab (Fin 2) (Fin 1) (Fin 2) (Fin 1))
  = Some (Modulator_tab (Fin 2) (Fin 1), Rotor_tab (Fin 2) (Fin 1))
  /\ df_all (initial_globals sample_records) = Rows sample_records
  /\ filterable (Combo3_tab (Fin 2) (Fin 1) (Fin 2) (Fin 1)) sample_records
     = true
  /\ exists gc g1 g2 out out1 out2,
       run (Combo3_tab (Fin 2) (Fin 1) (Fin 2) (Fin 1))
           (initial_globals sample_records) = Ok gc
       /\ combo_filtered gc = Some (Rows out)
       /\ run (Modulator_tab (Fin 2) (Fin 1)) (initial_globals sample_records)
          = Ok g1
       /\ torque_filtered_MOD g1 = Some (Rows out1)
       /\ run (Rotor_tab (Fin 2) (Fin 1)) (initial_globals sample_records)
          = Ok g2
       /\ torque_filtered g2 = Some (Rows out2)
       /\ (forall r, In r out <-> In r out1 /\ In r out2)
       /\ subsequence out out1
       /\ out = filterByRange out1 [(rotorTorque, Fin 2, Fin 1)].
Proof.
  split; [reflexivity |]. split; [reflexivity |]. split; [reflexivity |].
  apply (combined_search_is_intersection
           (Combo3_tab (Fin 2) (Fin 1) (Fin 2) (Fin 1))
           (Modulator_tab (Fin 2) (Fin 1)) (Rotor_tab (Fin 2) (Fin 1))
           (initial_globals sample_records) sample_records); reflexivity.
Defined.

Lemma filtered_assign_other (i j : Invocation) (g : Globals) (frame : Frame) :
  filtered i (assign j g frame)
  = if same_variable i j then Some frame else filtered i g.
Proof. destruct i, j; reflexivity. Qed.

(** X13.  The tabs do not disturb one another: run after any other tab, a
    tab computes what it computes on its own, [df_all] is still the frame
    it was, and the earlier result is still in its variable unless the two
    tabs share it, as the three combined tabs do. *)
Theorem tabs_are_independent
    (i j : Invocation) (g : Globals) (records : list Variante) :
  df_all g = Rows records ->
  filterable i records = true -> filterable j records = true ->
  exists g1 g2 gj,
    run i g = Ok g1 /\ run j g1 = Ok g2 /\ run j g = Ok gj
    /\ filtered j g2 = filtered j gj
    /\ df_all g2 = Rows records
    /\ filtered i g2
       = if same_variable i j then filtered j gj else filtered i g1.
Proof.
  intros Hdf Hi Hj.
  pose proof (run_filterable i g records Hdf Hi) as R1.
  pose proof (run_filterable j g records Hdf Hj) as Rj.
  set (g1 := assign i g (Rows (filterByRange records (triples_of i)))) in *.
  assert (Hdf1 : df_all g1 = Rows records).
  { subst g1. rewrite df_all_assign. exact Hdf. }
  pose proof (run_filterable j g1 records Hdf1 Hj) as R2.
  do 3 eexists.
  split; [exact R1 |]. split; [exact R2 |]. split; [exact Rj |].
  rewrite !filtered_assign. split; [reflexivity |].
  split; [rewrite df_all_assign; exact Hdf1 |].
  rewrite filtered_assign_other. reflexivity.
Qed.

Lemma tabs_are_independent_sample :
  df_all (initial_globals sample_records) = Rows sample_records
  /\ filterable (Combo1_tab (Fin 2) (Fin 1) (Fin 2) (Fin 2)) sample_records
     = true
  /\ filterable (Combo3_tab (Fin 2) (Fin 1) (Fin 2) (Fin 1)) sample_records
     = true
  /\ exists g1 g2 gj,
       run (Combo1_tab (Fin 2) (Fin 1) (Fin 2) (Fin 2))
           (initial_globals sample_records) = Ok g1
       /\ run (Combo3_tab (Fin 2) (Fin 1) (Fin 2) (Fin 1)) g1 = Ok g2
       /\ run (Combo3_tab (Fin 2) (Fin 1) (Fin 2) (Fin 1))
              (initial_globals sample_records) = Ok gj
       /\ combo_filtered g2 = combo_filtered gj
       /\ df_all g2 = Rows sample_records
       /\ combo_filtered g2 = combo_filtered gj.
Proof.
  split; [reflexivity |]. split; [reflexivity |]. split; [reflexivity |].
  apply (tabs_are_independent
           (Combo1_tab (Fin 2) (Fin 1) (Fin 2) (Fin 2))
           (Combo3_tab (Fin 2) (Fin 1) (Fin 2) (Fin 1))
           (initial_globals sample_records) sample_records); reflexivity.
Defined.

(** X14.  A sheet too short for a single block brings every tab down: the
    frame made from the empty list of records has no columns, and whatever
    the inputs of the tab its filter raises [KeyError]. *)
Theorem short_sheet_breaks_every_tab (df : DataFrame) (i : Invocation) :
  rectangular df = true -> df <> [] ->
  len df < 6 \/ ncols df = 0 ->
  (results <- extraction df ;; run i (initial_globals results))
  = Raise KeyError.
Proof.
  intros Hrect Hne Hshort.
  assert (E : extraction df = Ok []).
  { rewrite (extraction_spec df Hrect Hne). f_equal.
    apply extract_spec_nil_iff. exact Hshort. }
  rewrite E. cbn [bind]. apply run_no_columns. reflexivity.
Qed.

Lemma short_sheet_breaks_every_tab_five_rows :
  rectangular (firstn 5 grid_malformed) = true
  /\ firstn 5 grid_malformed <> []
  /\ (len (firstn 5 grid_malformed) < 6 \/ ncols (firstn 5 grid_malformed) = 0)
  /\ (results <- extraction (firstn 5 grid_malformed) ;;
      run (Rotor_tab (Fin 2) (Fin 1)) (initial_globals results))
     = Raise KeyError.
Proof.
  assert (H : len (firstn 5 grid_malformed) < 6
              \/ ncols (firstn 5 grid_malformed) = 0).
  { left. vm_compute. lia. }
  split; [reflexivity |]. split; [discriminate |]. split; [exact H |].
  apply (short_sheet_breaks_every_tab (firstn 5 grid_malformed)
           (Rotor_tab (Fin 2) (Fin 1))); [reflexivity | discriminate | exact H].
Defined.

Lemma in_range_nan (r : Variante) (t : Triple) :
  has_nan t = true -> in_range r t = false.
Proof.
  destruct t as [[f [target | | |]] [tolerance | | |]];
    try discriminate; intros _;
    unfold in_range; destruct (field_value f r) as [[v | | |] | s];
    reflexivity.
Qed.

(** X15.  A target or a tolerance that is NaN finds nothing and raises
    nothing: picking the blank entry of the gear-ratio list gives the empty
    table, the records with a blank gear ratio included. *)
Theorem nan_input_selects_nothing
    (i : Invocation) (g : Globals) (records : list Variante) :
  df_all g = Rows records -> filterable i records = true ->
  existsb has_nan (triples_of i) = true ->
  exists g',
    run i g = Ok g' /\ filtered i g' = Some (Rows []) /\ df_all g' = Rows records.
Proof.
  intros Hdf Hf Hnan. eexists.
  split; [apply (run_filterable i g records Hdf Hf) |].
  rewrite filtered_assign, df_all_assign. split; [| exact Hdf].
  do 2 f_equal. unfold filterByRange. apply filter_none. intros r _.
  apply existsb_exists in Hnan. destruct Hnan as (t & Ht & Hn).
  apply not_true_is_false. intros Hall. rewrite forallb_forall in Hall.
  specialize (Hall t Ht). rewrite (in_range_nan r t Hn) in Hall.
  discriminate.
Qed.

Lemma nan_input_selects_nothing_sample :
  df_all (initial_globals sample_records) = Rows sample_records
  /\ filterable (Uebersetzung_tab NaN (Fin 1)) sample_records = true
  /\ existsb has_nan (triples_of (Uebersetzung_tab NaN (Fin 1))) = true
  /\ exists g',
       run (Uebersetzung_tab NaN (Fin 1)) (initial_globals sample_records)
       = Ok g'
       /\ gear_ratio_filtered g' = Some (Rows [])
       /\ df_all g' = Rows sample_records.
Proof.
  split; [reflexivity |]. split; [reflexivity |]. split; [reflexivity |].
  apply (nan_input_selects_nothing (Uebersetzung_tab NaN (Fin 1))
           (initial_globals sample_records) sample_records); reflexivity.
Defined.

End FilterComposition.

(** ** The coloured table *)

Section Table.

Variable apply_empty : result (list float).


Lemma mapM_first_failure (l1 l2 : list Variante) (r : Variante) (e : exn) :
  forallb scorable_row l1 = true ->
  berechne_qualitaet r = Raise e ->
  mapM berechne_qualitaet (l1 ++ r :: l2) = Raise e.
Proof.
  intros H Hr. induction l1 as [| a l1 IH]; cbn [app mapM].
  - rewrite Hr. reflexivity.
  - cbn [forallb] in H. apply andb_prop in H. destruct H as [Ha Hl1].
    destruct (berechne_qualitaet_scorable a Ha) as (g & _ & Eg).
    rewrite Eg, (IH Hl1). reflexivity.
Qed.


(** X17.  One row that cannot be scored brings the whole table down: the
    formatting raises the exception of the first row whose quality factor
    raises one (a pole count that is blank, infinite, a text or rounds to
    0, or a quotient too large for a float), wherever in the frame that row
    is. *)
Theorem table_fails_on_first_bad_row
    (l1 l2 : list Variante) (r : Variante) (e : exn) :
  forallb scorable_row l1 = true ->
  berechne_qualitaet r = Raise e ->
  farbige_und_zentrierte_formatierung apply_empty (l1 ++ r :: l2) = Raise e.
Proof.
  intros H Hr.
  unfold farbige_und_zentrierte_formatierung, apply_berechne_qualitaet.
  rewrite (mapM_first_failure l1 l2 r e H Hr).
  destruct l1; reflexivity.
Qed.

Lemma first_bad_row (rows : list Variante) :
  forallb scorable_row rows = false ->
  exists l1 r l2,
    rows = l1 ++ r :: l2
    /\ forallb scorable_row l1 = true /\ scorable_row r = false.
Proof.
  induction rows as [| a rows IH]; [discriminate |].
  cbn [forallb]. destruct (scorable_row a) eqn:Ea.
  - cbn [andb]. intros H. destruct (IH H) as (l1 & r & l2 & -> & H1 & Hr).
    exists (a :: l1), r, l2. cbn [forallb]. rewrite Ea, H1.
    repeat split; assumption.
  - intros _. exists [], a, rows. repeat split; assumption.
Qed.


(** X19.  A selected record that cannot be scored brings its tab down:
    when the search returns a record that cannot be scored (a pole count
    that is blank, infinite, a text or rounds to 0, or a quotient too large
    for a float), the tab ends in an exception instead of a table. *)
Theorem tab_fails_on_bad_selection
    (i : Invocation) (g : Globals) (records : list Variante) :
  df_all g = Rows records -> filterable i records = true ->
  forallb scorable_row (filterByRange records (triples_of i)) = false ->
  exists e, tabelle apply_empty i g = Raise e.
Proof.
  intros Hdf Hf Hs.
  destruct (first_bad_row _ Hs) as (l1 & r & l2 & E & H1 & Hr).
  destruct (berechne_qualitaet_not_scorable r Hr) as [e He].
  exists e. unfold tabelle. rewrite (run_filterable i g records Hdf Hf).
  cbn [bind]. rewrite filtered_assign. cbn [getitem_columns bind].
  unfold farbige_und_zentrierte_formatierung, apply_berechne_qualitaet.
  rewrite E, (mapM_first_failure l1 l2 r e H1 He).
  destruct l1; reflexivity.
Qed.

End Table.

Example table_of_sample_records :
  exists styled,
    farbige_und_zentrierte_formatierung (Raise ValueError) sample_records
    = Ok styled
    /\ styles styled = repeat [rot; gruen; rot; gruen; gelb] 6.
Proof. eexists. split; [vm_compute; reflexivity | reflexivity]. Qed.


Lemma table_fails_on_first_bad_row_sample :
  forallb scorable_row [variant6] = true
  /\ berechne_qualitaet (row_of blank (int 5)) = Raise ValueError
  /\ farbige_und_zentrierte_formatierung (Ok [])
       ([variant6] ++ row_of blank (int 5) :: [zero_modulator_record])
     = Raise ValueError.
Proof.
  split; [reflexivity |]. split; [reflexivity |].
  apply (table_fails_on_first_bad_row (Ok []) [variant6]
           [zero_modulator_record] (row_of blank (int 5)) ValueError);
    reflexivity.
Defined.


Lemma tab_fails_on_bad_selection_sample :
  df_all (initial_globals (zero_modulator_record :: sample_records))
  = Rows (zero_modulator_record :: sample_records)
  /\ filterable (Uebersetzung_tab (Fin 2) (Fin (1 # 2)))
                (zero_modulator_record :: sample_records) = true
  /\ forallb scorable_row
       (filterByRange (zero_modulator_record :: sample_records)
          (triples_of (Uebersetzung_tab (Fin 2) (Fin (1 # 2))))) = false
  /\ exists e,
       tabelle (Raise ValueError) (Uebersetzung_tab (Fin 2) (Fin (1 # 2)))
         (initial_globals (zero_modulator_record :: sample_records))
       = Raise e.
Proof.
  split; [reflexivity |]. split; [reflexivity |]. split; [reflexivity |].
  apply (tab_fails_on_bad_selection (Raise ValueError)
           (Uebersetzung_tab (Fin 2) (Fin (1 # 2)))
           (initial_globals (zero_modulator_record :: sample_records))
           (zero_modulator_record :: sample_records)); reflexivity.
Defined.
